(** * The Mikkola (universal-variable Kepler) integrator of rebound

    A shallow embedding of [src/integrator_mikkola.c] and the properties
    its specification states about it.

    - A C [double] is a binary64 value: Rocq's primitive [float], whose
      operations are the IEEE 754 ones (round to nearest even), so
      signed zeros, infinities and NaN behave as they do in the C code.
    - A decimal constant of the source ([1e-17], [6227020800.]) is read
      as the nearest binary64 value, by the C compiler and by Rocq alike.
    - [sqrt] and [fabs] are the IEEE operations.  [pow] belongs to the C
      library, not to this repository: it is a parameter of the
      development.
    - An [unsigned int] is a [Z] reduced modulo [2^32]; an [int] index
      is a [Z].
    - Reading or writing outside an array is undefined behaviour in C:
      the model stops with [OutOfBounds].  The recursion of [c] and the
      [do ... while (1)] loop of [kepler_step] are not bounded by the
      source: the model runs them on a budget and stops with
      [OutOfFuel] when the budget is used up. *)

From Stdlib Require Import ZArith List Bool Lia Floats Permutation.
Import ListNotations.

Set Warnings "-inexact-float".

Local Open Scope Z_scope.

(** ** Outcomes of a run *)

Inductive outcome (A : Type) : Type :=
| Ok (a : A)
| OutOfBounds
| OutOfFuel.

Arguments Ok {A} a.
Arguments OutOfBounds {A}.
Arguments OutOfFuel {A}.

Definition bind {A B : Type} (r : outcome A) (k : A -> outcome B) : outcome B :=
  match r with
  | Ok a => k a
  | OutOfBounds => OutOfBounds
  | OutOfFuel => OutOfFuel
  end.

Notation "x <- e ;; k" := (bind e (fun x => k))
  (at level 61, e at next level, right associativity).

(** ** Machine integers *)

(** Arithmetic on [unsigned int] wraps around modulo [2^32]. *)
Definition uint (v : Z) : Z := v mod 2 ^ 32.

(** ** The reciprocal-factorial table *)

(** [static const double invfactorial[]]: 35 entries, [1/k!] for
    [k = 0 .. 34], each the binary64 quotient the initialiser denotes. *)
Definition invfactorial : list float :=
  [ 1; 1; 1 / 2; 1 / 6; 1 / 24; 1 / 120; 1 / 720; 1 / 5040; 1 / 40320;
    1 / 362880; 1 / 3628800; 1 / 39916800; 1 / 479001600;
    1 / 6227020800; 1 / 87178291200; 1 / 1307674368000;
    1 / 20922789888000; 1 / 355687428096000; 1 / 6402373705728000;
    1 / 121645100408832000; 1 / 2432902008176640000;
    1 / 51090942171709440000; 1 / 1124000727777607680000;
    1 / 25852016738884976640000; 1 / 620448401733239439360000;
    1 / 15511210043330985984000000; 1 / 403291461126605635584000000;
    1 / 10888869450418352160768000000;
    1 / 304888344611713860501504000000;
    1 / 8841761993739701954543616000000;
    1 / 265252859812191058636308480000000;
    1 / 8222838654177922817725562880000000;
    1 / 263130836933693530167218012160000000;
    1 / 8683317618811886495518194401280000000;
    1 / 295232799039604140847618609643520000000 ]%float.

(** [invfactorial[k]] for an unsigned index [k]. *)
Definition invfactorial_at (k : Z) : outcome float :=
  match nth_error invfactorial (Z.to_nat k) with
  | Some v => Ok v
  | None => OutOfBounds
  end.

(** ** Stumpff functions *)

Section Stumpff.

(** [pow x j] stands for the C library call [pow(x, j)] at an
    [unsigned int] exponent [j] (converted to [double] by the call). *)
Variable pow : float -> Z -> float.

(** The body of [for (unsigned int j=0;j<13;j++)] in [c_n_series],
    from counter [j] with running sum [c_n]; [todo] is [13 - j]. *)
Fixpoint c_n_series_from (todo : nat) (j : Z) (n : Z) (z : float)
         (c_n : float) : outcome float :=
  match todo with
  | O => Ok c_n
  | S todo' =>
      inv <- invfactorial_at (uint (n + uint (2 * j))) ;;
      let term := (pow (- z) j * inv)%float in
      let c_n := (c_n + term)%float in
      if (abs (term / c_n) <? 1e-17)%float then Ok c_n
      else c_n_series_from todo' (uint (j + 1)) n z c_n
  end.

Definition c_n_series (n : Z) (z : float) : outcome float :=
  c_n_series_from 13 0 n z 0%float.

(** [c(n, z)]; [depth] bounds the nesting of the recursive calls. *)
Fixpoint c (depth : nat) (n : Z) (z : float) : outcome float :=
  match depth with
  | O => OutOfFuel
  | S depth' =>
      if (0.5 <? z)%float then
        match n with
        | 0 =>
            c3 <- c depth' 3 (z / 4)%float ;;
            c1 <- c depth' 1 (z / 4)%float ;;
            let cn4 := (c3 * (1 + c1) / 8)%float in
            let cn2 := (1 / 2 - z * cn4)%float in
            let cn0 := (1 - z * cn2)%float in
            Ok cn0
        | 1 =>
            c5 <- c depth' 5 (z / 4)%float ;;
            c4 <- c depth' 4 (z / 4)%float ;;
            c3 <- c depth' 3 (z / 4)%float ;;
            c2 <- c depth' 2 (z / 4)%float ;;
            let cn5 := ((c5 + c4 + c3 * c2) / 16)%float in
            let cn3 := (1 / 6 - z * cn5)%float in
            let cn1 := (1 - z * cn3)%float in
            Ok cn1
        | 2 =>
            c3 <- c depth' 3 (z / 4)%float ;;
            c1 <- c depth' 1 (z / 4)%float ;;
            let cn4 := (c3 * (1 + c1) / 8)%float in
            let cn2 := (1 / 2 - z * cn4)%float in
            Ok cn2
        | 3 =>
            c5 <- c depth' 5 (z / 4)%float ;;
            c4 <- c depth' 4 (z / 4)%float ;;
            c3 <- c depth' 3 (z / 4)%float ;;
            c2 <- c depth' 2 (z / 4)%float ;;
            let cn5 := ((c5 + c4 + c3 * c2) / 16)%float in
            let cn3 := (1 / 6 - z * cn5)%float in
            Ok cn3
        | 4 =>
            c3 <- c depth' 3 (z / 4)%float ;;
            c1 <- c depth' 1 (z / 4)%float ;;
            let cn4 := (c3 * (1 + c1) / 8)%float in
            Ok cn4
        | 5 =>
            c5 <- c depth' 5 (z / 4)%float ;;
            c4 <- c depth' 4 (z / 4)%float ;;
            c3 <- c depth' 3 (z / 4)%float ;;
            c2 <- c depth' 2 (z / 4)%float ;;
            let cn5 := ((c5 + c4 + c3 * c2) / 16)%float in
            Ok cn5
        | _ => c_n_series n z
        end
      else c_n_series n z
  end.

Definition integrator_G (depth : nat) (n : Z) (beta X : float)
  : outcome float :=
  cn <- c depth n (beta * X * X)%float ;;
  Ok (pow X n * cn)%float.

End Stumpff.

(** ** Particles and the global state *)

(** [struct particle] (declared in [particle.h]): the fields this file
    reads and writes. *)
Record particle : Type := mkParticle {
  x : float; y : float; z : float;
  vx : float; vy : float; vz : float;
  m : float
}.

Definition set_x (p : particle) (v : float) : particle :=
  mkParticle v (y p) (z p) (vx p) (vy p) (vz p) (m p).
Definition set_y (p : particle) (v : float) : particle :=
  mkParticle (x p) v (z p) (vx p) (vy p) (vz p) (m p).
Definition set_z (p : particle) (v : float) : particle :=
  mkParticle (x p) (y p) v (vx p) (vy p) (vz p) (m p).
Definition set_vx (p : particle) (v : float) : particle :=
  mkParticle (x p) (y p) (z p) v (vy p) (vz p) (m p).
Definition set_vy (p : particle) (v : float) : particle :=
  mkParticle (x p) (y p) (z p) (vx p) v (vz p) (m p).
Definition set_vz (p : particle) (v : float) : particle :=
  mkParticle (x p) (y p) (z p) (vx p) (vy p) v (m p).

(** The globals of [main.h] and [particle.h] this file uses: the array
    [particles], the particle count [N], the time [t] and the step [dt]. *)
Record sim : Type := mkSim {
  particles : list particle;
  N : Z;
  t : float;
  dt : float
}.

(** [particles[i]] read as a value. *)
Definition load (ps : list particle) (i : Z) : outcome particle :=
  if i <? 0 then OutOfBounds
  else match nth_error ps (Z.to_nat i) with
       | Some p => Ok p
       | None => OutOfBounds
       end.

(** The list [ps] with slot [k] replaced by [p]. *)
Fixpoint replace_nth (ps : list particle) (k : nat) (p : particle)
  : list particle :=
  match ps, k with
  | [], _ => []
  | _ :: tl, O => p :: tl
  | q :: tl, S k' => q :: replace_nth tl k' p
  end.

(** [particles[i] = p]. *)
Definition store (ps : list particle) (i : Z) (p : particle)
  : outcome (list particle) :=
  if i <? 0 then OutOfBounds
  else if (Z.to_nat i <? length ps)%nat then Ok (replace_nth ps (Z.to_nat i) p)
  else OutOfBounds.

(** One assignment [particles[i].fld = rhs], where [rhs] reads fields
    of [particles[i]] as they are when the statement runs. *)
Definition assign (ps : list particle) (i : Z)
           (set_fld : particle -> float -> particle)
           (rhs : particle -> float) : outcome (list particle) :=
  p <- load ps i ;;
  store ps i (set_fld p (rhs p)).

(** ** The Kepler step *)

Section Kepler.

Variable pow : float -> Z -> float.

(** The [do { ... } while (1)] loop of [kepler_step], entered with
    the current value of [X]; [fuel] bounds the number of passes. *)
Fixpoint kepler_newton (depth fuel : nat) (r0 eta zeta beta dt X : float)
  : outcome float :=
  match fuel with
  | O => OutOfFuel
  | S fuel' =>
      G1 <- integrator_G pow depth 1 beta X ;;
      G2 <- integrator_G pow depth 2 beta X ;;
      G3 <- integrator_G pow depth 3 beta X ;;
      let s := (r0 * X + eta * G2 + zeta * G3 - dt)%float in
      let sp := (r0 + eta * G1 + zeta * G2)%float in
      let dX := ((- s) / sp)%float in
      let X := (X + dX)%float in
      if (abs (dX / X) <? 1e-15)%float then Ok X
      else kepler_newton depth fuel' r0 eta zeta beta dt X
  end.

Definition kepler_step (depth fuel : nat) (i : Z) (st : sim)
  : outcome sim :=
  p0 <- load (particles st) 0 ;;
  let M := m p0 in
  p1 <- load (particles st) i ;;
  let r0 := sqrt (x p1 * x p1 + y p1 * y p1 + z p1 * z p1)%float in
  let v2 := (vx p1 * vx p1 + vy p1 * vy p1 + vz p1 * vz p1)%float in
  let beta := (2 * M / r0 - v2)%float in
  let eta := (x p1 * vx p1 + y p1 * vy p1 + z p1 * vz p1)%float in
  let zeta := (M - beta * r0)%float in
  X <- kepler_newton depth fuel r0 eta zeta beta (dt st) 0%float ;;
  G1 <- integrator_G pow depth 1 beta X ;;
  G2 <- integrator_G pow depth 2 beta X ;;
  G3 <- integrator_G pow depth 3 beta X ;;
  let r := (r0 + eta * G1 + zeta * G2)%float in
  let f := (1 - M * G2 / r0)%float in
  let g := (dt st - M * G3)%float in
  let fd := ((- M) * G1 / (r0 * r))%float in
  let gd := (1 - M * G2 / r)%float in
  ps <- assign (particles st) i set_x (fun p => f * x p + g * vx p)%float ;;
  ps <- assign ps i set_y (fun p => f * y p + g * vy p)%float ;;
  ps <- assign ps i set_z (fun p => f * z p + g * vz p)%float ;;
  ps <- assign ps i set_vx (fun p => fd * x p + gd * vx p)%float ;;
  ps <- assign ps i set_vy (fun p => fd * y p + gd * vy p)%float ;;
  ps <- assign ps i set_vz (fun p => fd * z p + gd * vz p)%float ;;
  Ok (mkSim ps (N st) (t st) (dt st)).

(** [integrator_part1] does nothing. *)
Definition integrator_part1 (st : sim) : outcome sim := Ok st.

(** [for (int i=1;i<N;i++) kepler_step(i);] from counter [i];
    [todo] bounds the passes left. *)
Fixpoint integrator_part2_from (depth fuel : nat) (todo : nat) (i : Z)
         (st : sim) : outcome sim :=
  match todo with
  | O => Ok st
  | S todo' =>
      if i <? N st then
        st' <- kepler_step depth fuel i st ;;
        integrator_part2_from depth fuel todo' (i + 1) st'
      else Ok st
  end.

Definition integrator_part2 (depth fuel : nat) (st : sim) : outcome sim :=
  st' <- integrator_part2_from depth fuel (Z.to_nat (N st - 1)) 1 st ;;
  Ok (mkSim (particles st') (N st') (t st' + dt st')%float (dt st')).

End Kepler.

(** ** The Kepler step as a function of one body

    What [kepler_step] computes from the central mass [M], the step
    [dt] and the body [p1] it copies from the array: the body it leaves
    in the array when it returns. *)
Definition propagate (pow : float -> Z -> float) (depth fuel : nat)
           (M dt : float) (p1 : particle) : outcome particle :=
  let r0 := sqrt (x p1 * x p1 + y p1 * y p1 + z p1 * z p1)%float in
  let v2 := (vx p1 * vx p1 + vy p1 * vy p1 + vz p1 * vz p1)%float in
  let beta := (2 * M / r0 - v2)%float in
  let eta := (x p1 * vx p1 + y p1 * vy p1 + z p1 * vz p1)%float in
  let zeta := (M - beta * r0)%float in
  X <- kepler_newton pow depth fuel r0 eta zeta beta dt 0%float ;;
  G1 <- integrator_G pow depth 1 beta X ;;
  G2 <- integrator_G pow depth 2 beta X ;;
  G3 <- integrator_G pow depth 3 beta X ;;
  let r := (r0 + eta * G1 + zeta * G2)%float in
  let f := (1 - M * G2 / r0)%float in
  let g := (dt - M * G3)%float in
  let fd := ((- M) * G1 / (r0 * r))%float in
  let gd := (1 - M * G2 / r)%float in
  let new_x := (f * x p1 + g * vx p1)%float in
  let new_y := (f * y p1 + g * vy p1)%float in
  let new_z := (f * z p1 + g * vz p1)%float in
  Ok (mkParticle new_x new_y new_z
                 (fd * new_x + gd * vx p1)%float
                 (fd * new_y + gd * vy p1)%float
                 (fd * new_z + gd * vz p1)%float
                 (m p1)).

(** ** A stand-in for the C library's [pow]

    Repeated multiplication, used where a run is evaluated.  It meets
    what C (Annex F) fixes for [pow]: [pow(x, 0)] is [1] for every [x],
    and [pow] of a zero is the zero the sign rule gives. *)
Fixpoint pow_iter (x : float) (k : nat) : float :=
  match k with
  | O => 1%float
  | S O => x
  | S k' => (x * pow_iter x k')%float
  end.

Definition pow_model (x : float) (j : Z) : float := pow_iter x (Z.to_nat j).

(** What C (Annex F, F.9.4.4) fixes for [pow] at a non-negative integer
    exponent: [pow(x, 0)] is 1 for every [x], a NaN included;
    [pow(+0, y)] is [+0] for [y > 0]; [pow(-0, y)] is [-0] for an odd
    integer [y > 0] and [+0] for any other [y > 0]. *)
Record pow_annex_f (pow : float -> Z -> float) : Prop := {
  pow_exponent_zero : forall x : float, pow x 0 = 1%float;
  pow_pos_zero : forall j : Z, 0 < j -> pow 0%float j = 0%float;
  pow_neg_zero_odd :
    forall j : Z, 0 < j -> Z.odd j = true -> pow neg_zero j = neg_zero;
  pow_neg_zero_even :
    forall j : Z, 0 < j -> Z.odd j = false -> pow neg_zero j = 0%float
}.

(** ** An inaccurate [pow]

    C leaves the accuracy of [pow] to the implementation.  This one
    meets what Annex F fixes, is repeated multiplication at every
    exponent but 1, and is thirty orders of magnitude too small at
    exponent 1 for a non-zero [x]. *)
Definition pow_rough (x : float) (j : Z) : float :=
  if (j =? 1) && negb (is_zero x) then (x * 1e-30)%float else pow_model x j.

(** ** The recurrences of the quadrupling reducer, as the specification
    words them

    [at_quarter k] is the value of [c_k] at [z/4] and [at_z k] the value
    of [c_k] at [z]:
    c4(z) = c3(z/4)(1+c1(z/4))/8, c2(z) = 1/2 - z c4(z), c0(z) = 1 - z c2(z),
    c5(z) = (c5(z/4)+c4(z/4)+c3(z/4) c2(z/4))/16, c3(z) = 1/6 - z c5(z),
    c1(z) = 1 - z c3(z). *)
Definition stumpff_recurrence (at_quarter at_z : Z -> outcome float)
           (n : Z) (z : float) : outcome float :=
  match n with
  | 4 =>
      c3 <- at_quarter 3 ;;
      c1 <- at_quarter 1 ;;
      Ok (c3 * (1 + c1) / 8)%float
  | 2 => c4 <- at_z 4 ;; Ok (1 / 2 - z * c4)%float
  | 0 => c2 <- at_z 2 ;; Ok (1 - z * c2)%float
  | 5 =>
      c5 <- at_quarter 5 ;;
      c4 <- at_quarter 4 ;;
      c3 <- at_quarter 3 ;;
      c2 <- at_quarter 2 ;;
      Ok ((c5 + c4 + c3 * c2) / 16)%float
  | 3 => c5 <- at_z 5 ;; Ok (1 / 6 - z * c5)%float
  | 1 => c3 <- at_z 3 ;; Ok (1 - z * c3)%float
  | _ => OutOfBounds (* no recurrence is stated for another index *)
  end.

(** ** The series, as the specification words it

    Term [j] is (-z)^j / (n+2j)!, read from the table at index
    [n + 2 j]; the partial sum [k] adds the terms 0..k in this order to
    an accumulator that starts at 0; the stop test at [j] compares the
    magnitude of term [j] relative to the partial sum [j] with 1e-17. *)
Section SeriesSum.

Variable pow : float -> Z -> float.

Definition series_term (n : Z) (z : float) (j : nat) : float :=
  (pow (- z) (Z.of_nat j) * nth (Z.to_nat n + 2 * j) invfactorial 0)%float.

Fixpoint series_sum (n : Z) (z : float) (k : nat) : float :=
  match k with
  | O => (0 + series_term n z 0)%float
  | S k' => (series_sum n z k' + series_term n z k)%float
  end.

Definition series_stop (n : Z) (z : float) (j : nat) : bool :=
  (abs (series_term n z j / series_sum n z j) <? 1e-17)%float.

(** The accumulator on entry to pass [j]: the sum of the terms before
    it. *)
Definition sum_before (n : Z) (z : float) (j : nat) : float :=
  match j with
  | O => 0%float
  | S j' => series_sum n z j'
  end.

End SeriesSum.

(** ** The driver, as the specification words it

    The Kepler step applied to the bodies of a list of indexes, one
    after the other, and the indexes 1, 2, ..., N-1 in increasing
    order. *)
Section Sweep.

Variable step : Z -> sim -> outcome sim.

Fixpoint sweep (indexes : list Z) (st : sim) : outcome sim :=
  match indexes with
  | [] => Ok st
  | i :: rest => st' <- step i st ;; sweep rest st'
  end.

End Sweep.

Fixpoint count_up (k : nat) (i : Z) : list Z :=
  match k with
  | O => []
  | S k' => i :: count_up k' (i + 1)
  end.

Definition body_indexes (n : Z) : list Z := count_up (Z.to_nat (n - 1)) 1.

(** ** The specific orbital energy of the specification's conservation
    test: v^2/2 - M/r for a body around a central mass [M]. *)
Definition specific_energy (M : float) (p : particle) : float :=
  ((vx p * vx p + vy p * vy p + vz p * vz p) / 2
   - M / sqrt (x p * x p + y p * y p + z p * z p))%float.

(** ** Sample states *)

(** A unit central mass and a massless body on the circular orbit of
    radius 1. *)
Definition sun : particle := mkParticle 0 0 0 0 0 0 1.
Definition planet : particle := mkParticle 1 0 0 0 1 0 0.

(** The two-body state at time 0 with step [h]. *)
Definition two_body (h : float) : sim := mkSim [sun; planet] 2 0 h.

(** A second body, on the circular orbit of radius 4, and the
    three-body state at time 0 with step [h]. *)
Definition outer : particle := mkParticle 0 4 0 (-0.5) 0 0 0.
Definition three_body (h : float) : sim := mkSim [sun; planet; outer] 3 0 h.

(** * Properties *)

(** ** Outcomes *)

Lemma bind_Ok {A B : Type} (r : outcome A) (k : A -> outcome B) (b : B) :
  bind r k = Ok b -> exists a, r = Ok a /\ k a = Ok b.
Proof.
  destruct r as [a| |]; simpl; intros H; try discriminate.
  exists a. split; [reflexivity | exact H].
Qed.

(** Splits a hypothesis [x <- e ;; k = Ok b] into [e = Ok a] and
    [k a = Ok b], as often as it applies. *)
Ltac bind_inv H :=
  repeat (let a := fresh "a" in
          let E := fresh "E" in
          apply bind_Ok in H; destruct H as [a [E H]]).

(** ** Binary64 facts *)

Module Binary64.

(** Away from the subnormal range the exponent function is [e - 53]. *)
Lemma fexp_normal (e : Z) : -1021 <= e -> fexp 53 1024 e = e - 53.
Proof.
  intros H. unfold fexp, SpecFloat.emin.
  change IntDef.Z.max with Z.max. lia.
Qed.

Lemma div_eucl_shift (mz : positive) :
  Z.div_eucl (Z.shiftl (Z.pos mz) 53) 4503599627370496 = (Z.pos mz~0, 0).
Proof.
  rewrite Z.shiftl_mul_pow2 by lia.
  pose proof (Z_div_mod (Z.pos mz * 2 ^ 53) 4503599627370496 eq_refl) as H.
  destruct (Z.div_eucl (Z.pos mz * 2 ^ 53) 4503599627370496) as [q r].
  destruct H as [H1 H2].
  change (2 ^ 53) with (2 * 4503599627370496) in H1.
  assert (q = 2 * Z.pos mz) by nia.
  assert (r = 0) by nia.
  subst. reflexivity.
Qed.

(** Dividing a normal number of exponent at least [-53] by 4 lowers
    the exponent by two and keeps the mantissa: the quotient is exact. *)
Lemma SFdiv_quarter (mz : positive) (ez : Z) :
  digits2_pos mz = 53%positive -> -53 <= ez <= 971 ->
  SFdiv 53 1024 (S754_finite false mz ez)
        (S754_finite false 4503599627370496 (-50))
  = S754_finite false mz (ez - 2).
Proof.
  intros Hd He.
  unfold SFdiv, SFdiv_core_binary.
  cbn [Zdigits2 xorb]. rewrite Hd.
  change (Z.pos (digits2_pos 4503599627370496)) with 53.
  rewrite fexp_normal by lia.
  replace (IntDef.Z.min (53 + ez - (53 + -50) - 53) (ez - -50))
    with (ez - 3) by (change IntDef.Z.min with Z.min; lia).
  replace (ez - -50 - (ez - 3)) with 53 by lia.
  cbv iota beta zeta.
  change IntDef.Z.div_eucl with Z.div_eucl.
  change IntDef.Z.shiftl with Z.shiftl.
  rewrite div_eucl_shift.
  change (new_location 4503599627370496 0) with loc_Exact.
  unfold binary_round_aux, shr_fexp.
  cbn [Zdigits2 digits2_pos shr_record_of_loc]. rewrite Hd.
  change (Z.pos (Pos.succ 53)) with 54.
  rewrite fexp_normal by lia.
  replace (54 + (ez - 3) - 53 - (ez - 3)) with 1 by lia.
  cbn [shr iter_pos shr_1 shr_m shr_r shr_s orb loc_of_shr_record
       round_nearest_even Zdigits2].
  rewrite Hd.
  rewrite fexp_normal by lia.
  replace (53 + (ez - 3 + 1) - 53 - (ez - 3 + 1)) with 0 by lia.
  cbn [shr shr_m].
  replace (ez - 3 + 1) with (ez - 2) by lia.
  destruct (Z.leb_spec (ez - 2) (1024 - 53)); [reflexivity | lia].
Qed.

(** [x <= y] excludes [y < x], NaN included. *)
Lemma SFleb_not_gt (a b : spec_float) :
  SFleb a b = true -> SFltb b a = false.
Proof.
  unfold SFleb, SFltb.
  destruct a as [sa|sa| |sa ma ea], b as [sb|sb| |sb mb eb]; simpl;
    try discriminate; try reflexivity;
    try (destruct sa; simpl; try discriminate; reflexivity);
    try (destruct sb; simpl; try discriminate; reflexivity);
    try (destruct sa, sb; simpl; try discriminate; reflexivity).
  change PosDef.Pos.compare_cont with Pos.compare_cont.
  rewrite (Z.compare_antisym ea eb).
  assert (Hc : Pos.compare_cont Eq mb ma
               = CompOpp (Pos.compare_cont Eq ma mb))
    by (rewrite Pos.compare_cont_antisym; reflexivity).
  rewrite Hc.
  destruct sa, sb; simpl; try discriminate; try reflexivity;
    destruct (ea ?= eb); simpl; try discriminate; try reflexivity;
    destruct (Pos.compare_cont Eq ma mb); simpl;
    try discriminate; reflexivity.
Qed.

(** Negating the dividend negates the quotient. *)
Lemma binary_round_aux_opp (s : bool) (m e : Z) (l : location) :
  binary_round_aux 53 1024 (negb s) m e l
  = SFopp (binary_round_aux 53 1024 s m e l).
Proof.
  unfold binary_round_aux.
  destruct (shr_fexp 53 1024 m e l) as [mrs e'].
  destruct (shr_fexp 53 1024 _ e' loc_Exact) as [mrs' e''].
  destruct (shr_m mrs'); simpl; try reflexivity.
  destruct (e'' <=? 971); reflexivity.
Qed.

Lemma SFdiv_opp_l (a b : spec_float) :
  SFdiv 53 1024 (SFopp a) b = SFopp (SFdiv 53 1024 a b).
Proof.
  destruct a as [sa|sa| |sa ma ea], b as [sb|sb| |sb mb eb]; simpl;
    try reflexivity;
    try (destruct sa, sb; reflexivity).
  destruct (SFdiv_core_binary 53 1024 (Z.pos ma) ea (Z.pos mb) eb)
    as [[mz ez] lz].
  rewrite <- binary_round_aux_opp. destruct sa, sb; reflexivity.
Qed.

(** Subtracting is adding the opposite. *)
Lemma SFsub_add_opp (a b : spec_float) :
  SFsub 53 1024 a b = SFadd 53 1024 a (SFopp b).
Proof.
  destruct a as [sa|sa| |sa ma ea], b as [sb|sb| |sb mb eb]; simpl;
    try reflexivity;
    try (destruct sa, sb; reflexivity).
Qed.

(** [X += -s/sp] is [X = X - s/sp], bit for bit. *)
Lemma add_opp_div (X s sp : float) :
  (X + (- s) / sp = X - s / sp)%float.
Proof.
  apply Prim2SF_inj.
  rewrite add_spec, sub_spec, div_spec, div_spec, opp_spec.
  unfold SF64add, SF64sub, SF64div.
  change prec with 53. change emax with 1024.
  rewrite SFdiv_opp_l, SFsub_add_opp. reflexivity.
Qed.

Lemma leb_not_gt (a b : float) :
  (a <=? b)%float = true -> (b <? a)%float = false.
Proof.
  rewrite leb_spec, ltb_spec. apply SFleb_not_gt.
Qed.

(** A negative value is not above one half. *)
Lemma negative_not_gt_half (a : float) :
  (a <? 0)%float = true -> (0.5 <? a)%float = false.
Proof.
  rewrite !ltb_spec.
  change (Prim2SF 0.5) with (S754_finite false 4503599627370496 (-53)).
  change (Prim2SF 0) with (S754_zero false).
  destruct (Prim2SF a) as [s|s| |s m e]; try discriminate;
    destruct s; try discriminate; reflexivity.
Qed.

End Binary64.

(** ** Zeros and finite values *)

Module Zeros.

(** A finite value is a zero or a finite non-zero number. *)
Lemma is_finite_SF (a : float) :
  is_finite a = true ->
  (exists s, Prim2SF a = S754_zero s) \/
  (exists s m e, Prim2SF a = S754_finite s m e).
Proof.
  unfold is_finite, is_nan, is_infinity.
  rewrite !eqb_spec, abs_spec.
  destruct (Prim2SF a) as [s|s| |s m e]; intros H.
  - left. exists s. reflexivity.
  - destruct s; discriminate.
  - discriminate.
  - right. exists s, m, e. reflexivity.
Qed.

Lemma zero_cases (a : float) (s : bool) :
  Prim2SF a = S754_zero s -> a = 0%float \/ a = neg_zero.
Proof.
  intros H. destruct s; [right|left]; apply Prim2SF_inj; rewrite H;
    reflexivity.
Qed.

Lemma is_zero_cases (a : float) :
  is_zero a = true -> a = 0%float \/ a = neg_zero.
Proof.
  unfold is_zero. rewrite eqb_spec.
  destruct (Prim2SF a) as [s|s| |s m e] eqn:E; intros H.
  - apply (zero_cases a s E).
  - destruct s; discriminate.
  - discriminate.
  - destruct s; discriminate.
Qed.

Lemma finite_nonzero_SF (a : float) :
  is_finite a = true -> is_zero a = false ->
  exists s m e, Prim2SF a = S754_finite s m e.
Proof.
  intros Hf Hz. destruct (is_finite_SF a Hf) as [[s E]|H]; [|exact H].
  unfold is_zero in Hz. rewrite eqb_spec, E in Hz. destruct s; discriminate.
Qed.

(** A finite value times [+0] is a zero. *)
Lemma mul_zero_r (a : float) :
  is_finite a = true -> (a * 0 = 0 \/ a * 0 = neg_zero)%float.
Proof.
  intros H. destruct (is_finite_SF a H) as [[s E]|[s [m [e E]]]];
    apply (zero_cases _ s); rewrite mul_spec, E; simpl; destruct s;
    reflexivity.
Qed.

(** Adding a zero to a finite non-zero value changes nothing. *)
Lemma add_zero_r (a b : float) :
  is_finite a = true -> is_zero a = false ->
  (b = 0 \/ b = neg_zero)%float -> (a + b = a)%float.
Proof.
  intros Hf Hz Hb. destruct (finite_nonzero_SF a Hf Hz) as [s [m [e E]]].
  apply Prim2SF_inj. rewrite add_spec, E.
  destruct Hb as [-> | ->]; reflexivity.
Qed.

(** A zero divided by a finite non-zero value is a zero. *)
Lemma div_zero_l (a b : float) :
  is_finite a = true -> is_zero a = false ->
  (b = 0 \/ b = neg_zero)%float -> (b / a = 0 \/ b / a = neg_zero)%float.
Proof.
  intros Hf Hz Hb. destruct (finite_nonzero_SF a Hf Hz) as [s [m [e E]]].
  destruct Hb as [-> | ->].
  - apply (zero_cases _ s). rewrite div_spec, E. simpl.
    destruct s; reflexivity.
  - apply (zero_cases _ (negb s)). rewrite div_spec, E. simpl.
    destruct s; reflexivity.
Qed.

End Zeros.

(** ** Rounding to nearest in binary64

    What the additions and divisions of the series loop round to, from
    the definitions of the operations on mantissas and exponents. *)

Module Rounding.

(** [iter_pos] applies its function [p] times. *)
Lemma iter_pos_nat {A : Type} (f : A -> A) (p : positive) :
  forall x, iter_pos f p x = Nat.iter (Pos.to_nat p) f x.
Proof.
  induction p as [p IH|p IH|]; intros x; cbn [iter_pos].
  - rewrite !IH. rewrite Pos2Nat.inj_xI.
    replace (S (2 * Pos.to_nat p)) with (Pos.to_nat p + S (Pos.to_nat p))%nat
      by lia.
    rewrite Nat.iter_add. rewrite Nat.iter_succ_r. reflexivity.
  - rewrite !IH. rewrite Pos2Nat.inj_xO.
    replace (2 * Pos.to_nat p)%nat with (Pos.to_nat p + Pos.to_nat p)%nat
      by lia.
    rewrite Nat.iter_add. reflexivity.
  - reflexivity.
Qed.

(** One right shift halves the mantissa, keeps the bit shifted out as
    the round bit, and folds the old round bit into the sticky bit. *)
Lemma shr_1_spec (m : Z) (r s : bool) :
  0 <= m ->
  shr_1 {| shr_m := m; shr_r := r; shr_s := s |} =
  {| shr_m := m / 2; shr_r := Z.odd m; shr_s := r || s |}.
Proof.
  intros Hm. rewrite <- Z.div2_div.
  destruct m as [|[p|p|]|]; try reflexivity. lia.
Qed.

(** The low [k + 1] bits are zero when bit [k] and the low [k] bits
    are. *)
Lemma sticky_step (m k : Z) :
  0 <= k ->
  (m mod 2 ^ (k + 1) =? 0) = negb (Z.odd (m / 2 ^ k)) && (m mod 2 ^ k =? 0).
Proof.
  intros Hk.
  assert (H2 : 0 < 2 ^ k) by (apply Z.pow_pos_nonneg; lia).
  rewrite Z.pow_add_r, Z.pow_1_r by lia.
  rewrite Z.rem_mul_r by lia.
  rewrite (Zmod_odd (m / 2 ^ k)).
  pose proof (Z.mod_pos_bound m (2 ^ k) H2) as Hb.
  destruct (Z.odd (m / 2 ^ k)); cbn [negb andb].
  - destruct (Z.eqb_spec (m mod 2 ^ k + 2 ^ k * 1) 0); [lia | reflexivity].
  - rewrite Z.mul_0_r, Z.add_0_r. reflexivity.
Qed.

Lemma shr_iter (k : nat) (m : Z) (r s : bool) :
  0 <= m ->
  Nat.iter (S k) shr_1 {| shr_m := m; shr_r := r; shr_s := s |} =
  {| shr_m := m / 2 ^ (Z.of_nat k + 1);
     shr_r := Z.odd (m / 2 ^ Z.of_nat k);
     shr_s := r || s || negb (m mod 2 ^ Z.of_nat k =? 0) |}.
Proof.
  intros Hm. induction k as [|k IH].
  - cbn [Nat.iter]. rewrite shr_1_spec by exact Hm.
    change (2 ^ (Z.of_nat 0 + 1)) with 2. change (2 ^ Z.of_nat 0) with 1.
    rewrite Z.div_1_r, Z.mod_1_r. cbn. rewrite orb_false_r. reflexivity.
  - change (Nat.iter (S (S k)) shr_1 ?x) with (shr_1 (Nat.iter (S k) shr_1 x)).
    rewrite IH.
    assert (H2 : 0 < 2 ^ (Z.of_nat k + 1)) by (apply Z.pow_pos_nonneg; lia).
    rewrite shr_1_spec by (apply Z.div_pos; lia).
    replace (Z.of_nat (S k)) with (Z.of_nat k + 1) by lia.
    f_equal.
    + rewrite Z.div_div by lia.
      rewrite (Z.pow_add_r 2 (Z.of_nat k + 1) 1) by lia. reflexivity.
    + rewrite (sticky_step m (Z.of_nat k)) by lia.
      destruct r, s, (Z.odd (m / 2 ^ Z.of_nat k)),
        (m mod 2 ^ Z.of_nat k =? 0); reflexivity.
Qed.

(** [p] right shifts: the quotient by [2^p], the last bit shifted out,
    and whether anything below it was set. *)
Lemma shr_pos (p : positive) (m : Z) (r s : bool) :
  0 <= m ->
  iter_pos shr_1 p {| shr_m := m; shr_r := r; shr_s := s |} =
  {| shr_m := m / 2 ^ Z.pos p;
     shr_r := Z.odd (m / 2 ^ (Z.pos p - 1));
     shr_s := r || s || negb (m mod 2 ^ (Z.pos p - 1) =? 0) |}.
Proof.
  intros Hm. rewrite iter_pos_nat.
  destruct (Pos.to_nat p) as [|k] eqn:E; [lia|].
  rewrite shr_iter by exact Hm.
  replace (Z.of_nat k) with (Z.pos p - 1) by lia.
  replace (Z.pos p - 1 + 1) with (Z.pos p) by lia. reflexivity.
Qed.

(** The number of binary digits of a mantissa. *)
Lemma digits_bounds (p : positive) :
  2 ^ (Z.pos (digits2_pos p) - 1) <= Z.pos p < 2 ^ Z.pos (digits2_pos p).
Proof.
  induction p as [p IH|p IH|]; cbn [digits2_pos].
  - change (PosDef.Pos.succ (digits2_pos p)) with (Pos.succ (digits2_pos p)).
    rewrite Pos2Z.inj_succ.
    replace (Z.succ (Z.pos (digits2_pos p)) - 1)
      with (Z.succ (Z.pos (digits2_pos p) - 1)) by lia.
    rewrite !Z.pow_succ_r by lia. lia.
  - change (PosDef.Pos.succ (digits2_pos p)) with (Pos.succ (digits2_pos p)).
    rewrite Pos2Z.inj_succ.
    replace (Z.succ (Z.pos (digits2_pos p)) - 1)
      with (Z.succ (Z.pos (digits2_pos p) - 1)) by lia.
    rewrite !Z.pow_succ_r by lia. lia.
  - cbn. lia.
Qed.

Lemma digits_unique (p : positive) (k : Z) :
  2 ^ (k - 1) <= Z.pos p < 2 ^ k -> Z.pos (digits2_pos p) = k.
Proof.
  intros [Hlo Hhi]. pose proof (digits_bounds p) as [Dlo Dhi].
  assert (Hk : 0 < k).
  { destruct (Z.lt_trichotomy k 0) as [H|[H|H]]; [| |exact H].
    - rewrite Z.pow_neg_r in Hhi by lia. lia.
    - subst k. cbn in Hhi. lia. }
  assert (H1 : k - 1 < Z.pos (digits2_pos p)).
  { apply (Z.pow_lt_mono_r_iff 2); lia. }
  assert (H2 : Z.pos (digits2_pos p) - 1 < k).
  { apply (Z.pow_lt_mono_r_iff 2); lia. }
  lia.
Qed.

(** A finite binary64 value has at most 53 digits, and exactly 53
    unless it is subnormal. *)
Lemma valid_finite (s : bool) (m : positive) (e : Z) :
  SpecFloat.valid_binary 53 1024 (S754_finite s m e) = true ->
  -1074 <= e <= 971 /\ Z.pos (digits2_pos m) <= 53 /\
  (Z.pos (digits2_pos m) = 53 \/ e = -1074).
Proof.
  cbn [SpecFloat.valid_binary]. unfold bounded, canonical_mantissa, fexp.
  unfold SpecFloat.emin. change IntDef.Z.max with Z.max.
  intros H. apply andb_prop in H. destruct H as [H1 H2].
  apply Z.eqb_eq in H1. apply Z.leb_le in H2. lia.
Qed.

Lemma Zdigits2_unique (m k : Z) :
  2 ^ (k - 1) <= m < 2 ^ k -> 0 < m -> Zdigits2 m = k.
Proof.
  intros H Hm. destruct m as [|p|p]; try lia.
  apply digits_unique. exact H.
Qed.

Lemma shr_m_of_loc (m : Z) (l : location) : shr_m (shr_record_of_loc m l) = m.
Proof. destruct l as [|[| |]]; reflexivity. Qed.

Lemma shr_1_m (mrs : shr_record) :
  0 <= shr_m mrs -> shr_m (shr_1 mrs) = shr_m mrs / 2.
Proof.
  destruct mrs as [m r s]. cbn [shr_m]. intros H.
  rewrite shr_1_spec by exact H. reflexivity.
Qed.

(** A 53-bit mantissa is not shifted; a 54-bit one is shifted once. *)
Lemma shr_fexp_53 (m e : Z) (l : location) :
  2 ^ 52 <= m < 2 ^ 53 -> -1074 <= e ->
  shr_fexp 53 1024 m e l = (shr_record_of_loc m l, e).
Proof.
  intros Hm He. unfold shr_fexp.
  rewrite (Zdigits2_unique m 53) by (change (53 - 1) with 52; lia).
  rewrite Binary64.fexp_normal by lia.
  replace (53 + e - 53 - e) with 0 by lia. reflexivity.
Qed.

Lemma shr_fexp_54 (m e : Z) (l : location) :
  2 ^ 53 <= m < 2 ^ 54 -> -1075 <= e ->
  shr_fexp 53 1024 m e l = (shr_1 (shr_record_of_loc m l), e + 1).
Proof.
  intros Hm He. unfold shr_fexp.
  rewrite (Zdigits2_unique m 54) by (change (54 - 1) with 53; lia).
  rewrite Binary64.fexp_normal by lia.
  replace (54 + e - 53 - e) with 1 by lia. reflexivity.
Qed.

Lemma round_nearest_even_bounds (m : Z) (l : location) :
  m <= round_nearest_even m l <= m + 1.
Proof.
  destruct l as [|[| |]]; cbn [round_nearest_even]; try lia.
  destruct (IntDef.Z.even m); lia.
Qed.

(** Rounding a 53-bit mantissa: the result is finite with the same or
    the next exponent, or infinite. *)
Lemma round_aux_53 (s : bool) (m e : Z) (l : location) :
  2 ^ 52 <= m < 2 ^ 53 -> -1074 <= e ->
  binary_round_aux 53 1024 s m e l = S754_infinity s \/
  exists m2 e2, binary_round_aux 53 1024 s m e l = S754_finite s m2 e2 /\
                e <= e2.
Proof.
  intros Hm He. unfold binary_round_aux.
  rewrite shr_fexp_53 by assumption.
  rewrite shr_m_of_loc.
  pose proof (round_nearest_even_bounds m (loc_of_shr_record (shr_record_of_loc m l)))
    as Hr.
  set (m' := round_nearest_even m _) in *.
  destruct (Z_lt_le_dec m' (2 ^ 53)) as [Hlt|Hge].
  - rewrite shr_fexp_53 by lia. cbn [shr_record_of_loc shr_m].
    destruct m' as [|p|p]; try lia.
    destruct (e <=? 1024 - 53); [right|left; reflexivity].
    exists p, e. split; [reflexivity|lia].
  - assert (m' = 2 ^ 53) as -> by lia.
    rewrite shr_fexp_54 by lia. cbn.
    destruct (e + 1 <=? 971); [right|left; reflexivity].
    eexists _, (e + 1). split; [reflexivity|lia].
Qed.

Lemma round_aux_ge (s : bool) (q e : Z) (l : location) :
  2 ^ 52 <= q < 2 ^ 54 -> -1074 <= e ->
  binary_round_aux 53 1024 s q e l = S754_infinity s \/
  exists m2 e2, binary_round_aux 53 1024 s q e l = S754_finite s m2 e2 /\
                e <= e2.
Proof.
  intros Hq He.
  destruct (Z_lt_le_dec q (2 ^ 53)) as [Hlt|Hge].
  - apply round_aux_53; [lia | exact He].
  - unfold binary_round_aux.
    rewrite shr_fexp_54 by lia.
    rewrite shr_1_m by (rewrite shr_m_of_loc; lia).
    rewrite shr_m_of_loc.
    assert (Hh : 2 ^ 52 <= q / 2 < 2 ^ 53).
    { change (2 ^ 54) with (2 * 2 ^ 53) in Hq.
      change (2 ^ 53) with (2 * 2 ^ 52) in Hge.
      split; [apply Z.div_le_lower_bound; lia
             | apply Z.div_lt_upper_bound; lia]. }
    pose proof (round_nearest_even_bounds (q / 2)
                  (loc_of_shr_record (shr_1 (shr_record_of_loc q l)))) as Hr.
    set (m' := round_nearest_even (q / 2) _) in *.
    destruct (Z_lt_le_dec m' (2 ^ 53)) as [Hlt|Hge'].
    + rewrite shr_fexp_53 by lia. cbn [shr_record_of_loc shr_m].
      destruct m' as [|p|p]; try lia.
      destruct (e + 1 <=? 1024 - 53); [right|left; reflexivity].
      exists p, (e + 1). split; [reflexivity|lia].
    + assert (m' = 2 ^ 53) as -> by lia.
      rewrite shr_fexp_54 by lia. cbn.
      destruct (e + 1 + 1 <=? 971); [right|left; reflexivity].
      eexists _, (e + 1 + 1). split; [reflexivity|lia].
Qed.

(** A quotient that passes the test [|t / c| < 1e-17] has a dividend
    at least 56 binary orders of magnitude below the divisor. *)
Lemma div_small (st sc : bool) (mt mc : positive) (et ec : Z) :
  SpecFloat.valid_binary 53 1024 (S754_finite st mt et) = true ->
  SpecFloat.valid_binary 53 1024 (S754_finite sc mc ec) = true ->
  SFltb (SFabs (SFdiv 53 1024 (S754_finite st mt et) (S754_finite sc mc ec)))
        (S754_finite false 6490371073168535 (-109)) = true ->
  Z.pos (digits2_pos mt) + et + 56 <= Z.pos (digits2_pos mc) + ec.
Proof.
  intros Vt Vc H.
  destruct (Z_le_gt_dec (Z.pos (digits2_pos mt) + et + 56)
                        (Z.pos (digits2_pos mc) + ec)) as [Hle|Hgt];
    [exact Hle | exfalso].
  apply valid_finite in Vt, Vc.
  pose proof (digits_bounds mt) as Bt. pose proof (digits_bounds mc) as Bc.
  set (dt := Z.pos (digits2_pos mt)) in *.
  set (dc := Z.pos (digits2_pos mc)) in *.
  assert (Hdt : 0 < dt) by (unfold dt; lia).
  assert (Hdc : 0 < dc) by (unfold dc; lia).
  revert H. unfold SFdiv, SFdiv_core_binary. cbn [Zdigits2].
  fold dt dc.
  rewrite Binary64.fexp_normal by lia.
  change IntDef.Z.min with Z.min.
  rewrite Z.min_l by lia.
  replace (et - ec - (dt + et - (dc + ec) - 53)) with (53 - dt + dc) by lia.
  destruct (53 - dt + dc) as [|s|s] eqn:Es; try lia.
  change IntDef.Z.shiftl with Z.shiftl.
  change IntDef.Z.div_eucl with Z.div_eucl.
  rewrite Z.shiftl_mul_pow2 by lia.
  pose proof (Z_div_mod (Z.pos mt * 2 ^ Z.pos s) (Z.pos mc) eq_refl) as Hdiv.
  destruct (Z.div_eucl (Z.pos mt * 2 ^ Z.pos s) (Z.pos mc)) as [q r].
  destruct Hdiv as [Hq Hr].
  assert (Hs : 2 ^ Z.pos s * 2 ^ (dt - 1) = 2 ^ 52 * 2 ^ dc).
  { rewrite <- !Z.pow_add_r by lia. f_equal. lia. }
  assert (Hs' : 2 ^ Z.pos s * 2 ^ dt = 2 ^ 54 * 2 ^ (dc - 1)).
  { rewrite <- !Z.pow_add_r by lia. f_equal. lia. }
  assert (Hp : 0 < 2 ^ Z.pos s) by (apply Z.pow_pos_nonneg; lia).
  assert (Hqb : 2 ^ 52 <= q < 2 ^ 54).
  { split.
    - assert (2 ^ 52 * Z.pos mc < Z.pos mt * 2 ^ Z.pos s) by nia.
      nia.
    - assert (Z.pos mt * 2 ^ Z.pos s < 2 ^ 54 * Z.pos mc) by nia.
      nia. }
  destruct (round_aux_ge (xorb st sc) q (dt + et - (dc + ec) - 53)
              (new_location (Z.pos mc) r) Hqb ltac:(lia))
    as [E|[m2 [e2 [E He2]]]]; rewrite E; cbn [SFabs].
  - discriminate.
  - unfold SFltb, SFcompare.
    change IntDef.Z.compare with Z.compare.
    destruct (Z.compare_spec e2 (-109)) as [?|?|?];
      [lia | lia | discriminate].
Qed.

(** [n] right shifts of [(2 Q + beta) 2^(n-1) + rho] leave [Q], the
    round bit [beta] and the sticky bit [rho <> 0]. *)
Lemma shr_decomp (n : positive) (p Q rho : Z) (beta : bool) :
  0 <= Q -> 0 <= rho < 2 ^ (Z.pos n - 1) ->
  p = (2 * Q + (if beta then 1 else 0)) * 2 ^ (Z.pos n - 1) + rho ->
  iter_pos shr_1 n {| shr_m := p; shr_r := false; shr_s := false |} =
  {| shr_m := Q; shr_r := beta; shr_s := negb (rho =? 0) |}.
Proof.
  intros HQ Hrho Hp.
  assert (HP : 0 < 2 ^ (Z.pos n - 1)) by (apply Z.pow_pos_nonneg; lia).
  assert (H2 : 2 ^ Z.pos n = 2 * 2 ^ (Z.pos n - 1)).
  { rewrite <- Z.pow_succ_r by lia. f_equal. lia. }
  set (P := 2 ^ (Z.pos n - 1)) in *.
  assert (Hb : 0 <= (if beta then 1 else 0) <= 1) by (destruct beta; lia).
  assert (Hp0 : 0 <= p) by nia.
  rewrite shr_pos by exact Hp0. fold P. rewrite H2.
  assert (E1 : p / (2 * P) = Q).
  { symmetry.
    apply (Z.div_unique p (2 * P) Q ((if beta then 1 else 0) * P + rho));
      [left; nia | nia]. }
  assert (E2 : p / P = 2 * Q + (if beta then 1 else 0)).
  { symmetry. apply (Z.div_unique p P _ rho); [left; lia | nia]. }
  assert (E3 : p mod P = rho).
  { symmetry.
    apply (Z.mod_unique p P (2 * Q + (if beta then 1 else 0)) rho);
      [left; lia | nia]. }
  rewrite E1, E2, E3. f_equal.
  rewrite Z.add_comm, Z.odd_add_mul_2. destruct beta; reflexivity.
Qed.

(** Rounding an integer with more than 53 bits: the low [n] bits go,
    and the 53 bits kept are rounded to nearest on the bit and the
    remainder below it. *)
Lemma binary_round_shift (s : bool) (p : positive) (e : Z) (n : positive)
      (Q rho : Z) (beta : bool) :
  -1074 <= e -> 2 ^ 52 <= Q < 2 ^ 53 -> 0 <= rho < 2 ^ (Z.pos n - 1) ->
  Z.pos p = (2 * Q + (if beta then 1 else 0)) * 2 ^ (Z.pos n - 1) + rho ->
  binary_round 53 1024 s p e =
  let m' := round_nearest_even Q
              (loc_of_shr_record
                 {| shr_m := Q; shr_r := beta; shr_s := negb (rho =? 0) |}) in
  let '(mrs, e'') := shr_fexp 53 1024 m' (e + Z.pos n) loc_Exact in
  match shr_m mrs with
  | 0 => S754_zero s
  | Z.pos m => if e'' <=? 1024 - 53 then S754_finite s m e''
               else S754_infinity s
  | Z.neg _ => S754_nan
  end.
Proof.
  intros He HQ Hrho Hp.
  assert (HP : 0 < 2 ^ (Z.pos n - 1)) by (apply Z.pow_pos_nonneg; lia).
  assert (Hb : 0 <= (if beta then 1 else 0) <= 1) by (destruct beta; lia).
  assert (Hd : Z.pos (digits2_pos p) = 53 + Z.pos n).
  { apply digits_unique.
    replace (53 + Z.pos n - 1) with (52 + (Z.pos n - 1) + 1) by lia.
    replace (53 + Z.pos n) with (53 + (Z.pos n - 1) + 1) by lia.
    rewrite !Z.pow_add_r by lia. change (2 ^ 1) with 2.
    set (P := 2 ^ (Z.pos n - 1)) in *. nia. }
  unfold binary_round, shl_align. rewrite Hd.
  rewrite Binary64.fexp_normal by lia.
  replace (53 + Z.pos n + e - 53 - e) with (Z.pos n) by lia.
  unfold binary_round_aux, shr_fexp at 1. cbn [Zdigits2]. rewrite Hd.
  rewrite Binary64.fexp_normal by lia.
  replace (53 + Z.pos n + e - 53 - e) with (Z.pos n) by lia.
  cbn [shr shr_record_of_loc].
  rewrite (shr_decomp n (Z.pos p) Q rho beta) by (assumption || lia).
  reflexivity.
Qed.

Lemma iter_xO (m p : positive) :
  Z.pos (Pos.iter xO m p) = Z.pos m * 2 ^ Z.pos p.
Proof.
  induction p as [|p IH] using Pos.peano_ind.
  - cbn. lia.
  - rewrite Pos.iter_succ, Pos2Z.inj_succ, Z.pow_succ_r by lia.
    rewrite Pos2Z.inj_xO, IH. lia.
Qed.

(** The core of absorption: a 53-bit mantissa shifted left by [d] bits,
    plus or minus less than a quarter of its last unit, rounds back to
    the mantissa. *)
Lemma binary_round_absorb (s : bool) (p mc : positive) (e d delta : Z) :
  -1074 <= e -> e + d <= 971 -> 3 <= d ->
  Z.pos (digits2_pos mc) = 53 ->
  0 < Z.abs delta < 2 ^ (d - 2) ->
  Z.pos p = Z.pos mc * 2 ^ d + delta ->
  binary_round 53 1024 s p e = S754_finite s mc (e + d).
Proof.
  intros He Hed Hd Hmc Hdelta Hp.
  pose proof (digits_bounds mc) as Bc. rewrite Hmc in Bc.
  change (53 - 1) with 52 in Bc.
  assert (H2 : 2 ^ d = 2 * 2 ^ (d - 1)).
  { rewrite <- Z.pow_succ_r by lia. f_equal. lia. }
  assert (H1 : 2 ^ (d - 1) = 2 * 2 ^ (d - 2)).
  { rewrite <- Z.pow_succ_r by lia. f_equal. lia. }
  assert (HP : 0 < 2 ^ (d - 2)) by (apply Z.pow_pos_nonneg; lia).
  destruct (Z_lt_le_dec 0 delta) as [Hpos|Hneg].
  - (* the small term has the sign of the large one *)
    destruct d as [|dp|dp]; try lia.
    rewrite (binary_round_shift s p e dp (Z.pos mc) delta false);
      [| lia | lia | lia | lia].
    destruct (Z.eqb_spec delta 0); [lia|].
    cbn [negb loc_of_shr_record round_nearest_even].
    rewrite shr_fexp_53 by lia. cbn [shr_record_of_loc shr_m].
    destruct (Z.leb_spec (e + Z.pos dp) (1024 - 53)); [reflexivity | lia].
  - destruct (Z_lt_le_dec (2 ^ 52) (Z.pos mc)) as [Hbig|Hpow].
    + (* opposite signs, the mantissa is not the smallest *)
      destruct d as [|dp|dp]; try lia.
      rewrite (binary_round_shift s p e dp (Z.pos mc - 1)
                 (2 ^ (Z.pos dp - 1) + delta) true);
        [| lia | lia | lia | lia].
      destruct (Z.eqb_spec (2 ^ (Z.pos dp - 1) + delta) 0); [lia|].
      cbn [negb loc_of_shr_record round_nearest_even].
      replace (Z.pos mc - 1 + 1) with (Z.pos mc) by lia.
      rewrite shr_fexp_53 by lia. cbn [shr_record_of_loc shr_m].
      destruct (Z.leb_spec (e + Z.pos dp) (1024 - 53)); [reflexivity | lia].
    + (* opposite signs, the mantissa is 2^52: one bit fewer *)
      assert (Emc : mc = 4503599627370496%positive).
      { apply Pos2Z.inj. change (Z.pos 4503599627370496) with (2 ^ 52). lia. }
      subst mc.
      change (Z.pos 4503599627370496) with (2 ^ 52) in *.
      destruct (d - 1) as [|np|np] eqn:En; try lia.
      assert (Ed : d = Z.pos np + 1) by lia. subst d.
      replace (Z.pos np + 1 - 1) with (Z.pos np) in * by lia.
      replace (Z.pos np + 1 - 2) with (Z.pos np - 1) in * by lia.
      rewrite (binary_round_shift s p e np (2 ^ 53 - 1)
                 (2 ^ (Z.pos np - 1) + delta) true);
        [| lia | lia | lia | ].
      * destruct (Z.eqb_spec (2 ^ (Z.pos np - 1) + delta) 0); [lia|].
        cbn [negb loc_of_shr_record round_nearest_even].
        change (2 ^ 53 - 1 + 1) with (2 ^ 53).
        rewrite shr_fexp_54 by lia. cbn.
        replace (e + Z.pos np + 1) with (e + (Z.pos np + 1)) by lia.
        destruct (Z.leb_spec (e + (Z.pos np + 1)) 971); [reflexivity | lia].
      * rewrite Hp, H2. change (2 ^ 53) with (2 * 2 ^ 52). lia.
Qed.

(** Absorption: adding to a normal number a number at least three
    binary orders of magnitude below its last unit returns it. *)
Lemma SFadd_absorb (sc st : bool) (mc mt : positive) (ec et : Z) :
  Z.pos (digits2_pos mc) = 53 -> ec <= 971 -> -1074 <= et ->
  Z.pos (digits2_pos mt) + et + 3 <= ec ->
  SFadd 53 1024 (S754_finite sc mc ec) (S754_finite st mt et)
  = S754_finite sc mc ec.
Proof.
  intros Hmc Hec Het Hsmall.
  pose proof (digits_bounds mt) as Bt.
  pose proof (digits_bounds mc) as Bc. rewrite Hmc in Bc.
  set (dt := Z.pos (digits2_pos mt)) in *.
  assert (Hdt : 0 < dt) by (unfold dt; lia).
  assert (Hlt : Z.pos mt < 2 ^ (ec - et - 2)).
  { apply (Z.lt_le_trans _ (2 ^ dt)); [lia|].
    apply Z.pow_le_mono_r; lia. }
  assert (Hbig : 2 ^ (ec - et - 2) < 2 ^ 52 * 2 ^ (ec - et)).
  { rewrite <- Z.pow_add_r by lia. apply Z.pow_lt_mono_r; lia. }
  cbn [SFadd]. change IntDef.Z.min with Z.min.
  rewrite Z.min_r by lia.
  unfold shl_align. rewrite Z.sub_diag.
  destruct (et - ec) as [|dp|dp] eqn:Ed; try lia.
  cbn [fst]. change (PosDef.Pos.iter xO mc dp) with (Pos.iter xO mc dp).
  assert (HA : Z.pos (Pos.iter xO mc dp) = Z.pos mc * 2 ^ (ec - et)).
  { rewrite iter_xO. f_equal. f_equal. lia. }
  assert (Hround : forall (s : bool) (p : positive) (delta : Z),
             0 < Z.abs delta < 2 ^ (ec - et - 2) ->
             Z.pos p = Z.pos mc * 2 ^ (ec - et) + delta ->
             binary_round 53 1024 s p et = S754_finite s mc ec).
  { intros s p delta Hdelta Hp.
    replace (S754_finite s mc ec) with (S754_finite s mc (et + (ec - et)))
      by (f_equal; lia).
    apply (binary_round_absorb s p mc et (ec - et) delta); lia. }
  assert (HAm : Z.pos mt < Z.pos (Pos.iter xO mc dp)).
  { rewrite HA. change (53 - 1) with 52 in Bc.
    assert (0 < 2 ^ (ec - et)) by (apply Z.pow_pos_nonneg; lia). nia. }
  destruct sc, st; cbn [cond_Zopp Z.opp Z.add];
    change IntDef.Z.pos_sub with Z.pos_sub.
  - (* both negative *)
    apply (Hround true (Pos.iter xO mc dp + mt)%positive (Z.pos mt)); lia.
  - rewrite Z.pos_sub_lt by lia.
    apply (Hround true (Pos.iter xO mc dp - mt)%positive (- Z.pos mt)); lia.
  - rewrite Z.pos_sub_gt by lia.
    apply (Hround false (Pos.iter xO mc dp - mt)%positive (- Z.pos mt)); lia.
  - apply (Hround false (Pos.iter xO mc dp + mt)%positive (Z.pos mt)); lia.
Qed.

Lemma digits_le (a b : positive) :
  (a <= b)%positive -> Z.pos (digits2_pos a) <= Z.pos (digits2_pos b).
Proof.
  intros H. pose proof (digits_bounds a) as [Ha _].
  pose proof (digits_bounds b) as [_ Hb].
  assert (Hlt : 2 ^ (Z.pos (digits2_pos a) - 1) < 2 ^ Z.pos (digits2_pos b))
    by lia.
  apply Z.pow_lt_mono_r_iff in Hlt; lia.
Qed.

(** [|a| <= |b|] on valid finite values orders their magnitudes. *)
Lemma abs_le_magnitude (sa sb : bool) (ma mb : positive) (ea eb : Z) :
  SpecFloat.valid_binary 53 1024 (S754_finite sa ma ea) = true ->
  SpecFloat.valid_binary 53 1024 (S754_finite sb mb eb) = true ->
  SFleb (SFabs (S754_finite sa ma ea)) (SFabs (S754_finite sb mb eb)) = true ->
  Z.pos (digits2_pos ma) + ea <= Z.pos (digits2_pos mb) + eb.
Proof.
  intros Va Vb. apply valid_finite in Va, Vb.
  unfold SFleb, SFabs, SFcompare.
  change IntDef.Z.compare with Z.compare.
  change PosDef.Pos.compare_cont with Pos.compare_cont.
  destruct (Z.compare_spec ea eb) as [E|E|E]; intros H.
  - subst eb.
    assert (Hle : (ma <= mb)%positive).
    { unfold Pos.le, Pos.compare.
      destruct (Pos.compare_cont Eq ma mb); discriminate. }
    pose proof (digits_le _ _ Hle). lia.
  - lia.
  - discriminate.
Qed.

(** Absorption: when a term [t] passes the test [|t / c| < 1e-17],
    adding to [c] any term no larger than [t] in magnitude returns [c],
    bit for bit. *)
Lemma absorb (c t t' : float) :
  (abs (t / c) <? 1e-17)%float = true ->
  (abs t' <=? abs t)%float = true ->
  (c + t' = c)%float.
Proof.
  rewrite ltb_spec, leb_spec, !abs_spec, div_spec.
  change (Prim2SF 1e-17) with (S754_finite false 6490371073168535 (-109)).
  unfold SF64div. change prec with 53. change emax with 1024.
  intros Hdiv Hle. apply Prim2SF_inj. rewrite add_spec.
  unfold SF64add. change prec with 53. change emax with 1024.
  pose proof (Prim2SF_valid c) as Vc. pose proof (Prim2SF_valid t) as Vt.
  pose proof (Prim2SF_valid t') as Vt'.
  change prec with 53 in *. change emax with 1024 in *.
  destruct (Prim2SF c) as [sc|sc| |sc mc ec];
    destruct (Prim2SF t) as [st|st| |st mt et];
    try discriminate Hdiv;
    destruct (Prim2SF t') as [st'|st'| |st' mt' et'];
    try discriminate Hle; try reflexivity.
  pose proof (div_small _ _ _ _ _ _ Vt Vc Hdiv) as Hsmall.
  pose proof (abs_le_magnitude _ _ _ _ _ _ Vt' Vt Hle) as Hmag.
  apply valid_finite in Vc, Vt, Vt'.
  pose proof (digits_bounds mt') as Bt'.
  assert (0 < Z.pos (digits2_pos mt')) by lia.
  apply SFadd_absorb; lia.
Qed.

End Rounding.

(** ** The series evaluator *)

Section StumpffFacts.

Variable pow : float -> Z -> float.

Lemma uint_small (v : Z) : 0 <= v < 2 ^ 32 -> uint v = v.
Proof. intros H. unfold uint. apply Z.mod_small. exact H. Qed.

Lemma invfactorial_length : length invfactorial = 35%nat.
Proof. reflexivity. Qed.

Lemma invfactorial_at_ok (k : Z) :
  0 <= k <= 34 -> exists v, invfactorial_at k = Ok v.
Proof.
  intros Hk. unfold invfactorial_at.
  destruct (nth_error invfactorial (Z.to_nat k)) as [v|] eqn:E.
  - exists v. reflexivity.
  - apply nth_error_None in E. rewrite invfactorial_length in E. lia.
Qed.

(** One pass of the series loop, as the source writes it. *)
Lemma c_n_series_from_step (todo : nat) (j n : Z) (z c_n inv : float) :
  invfactorial_at (uint (n + uint (2 * j))) = Ok inv ->
  c_n_series_from pow (S todo) j n z c_n =
  let term := (pow (- z) j * inv)%float in
  if (abs (term / (c_n + term)) <? 1e-17)%float then Ok (c_n + term)%float
  else c_n_series_from pow todo (uint (j + 1)) n z (c_n + term)%float.
Proof. intros H. cbn [c_n_series_from]. rewrite H. reflexivity. Qed.

(** With [n + 2 j] inside the table for the passes left, the loop
    returns a sum. *)
Lemma c_n_series_from_ok (todo : nat) :
  forall (j n : Z) (z c_n : float),
    0 <= n -> 0 <= j -> n + 2 * (j + Z.of_nat todo - 1) <= 34 ->
    exists v, c_n_series_from pow todo j n z c_n = Ok v.
Proof.
  induction todo as [|todo IH]; intros j n z c_n Hn Hj Hb.
  - exists c_n. reflexivity.
  - assert (Hi : uint (n + uint (2 * j)) = n + 2 * j).
    { rewrite (uint_small (2 * j)) by lia. apply uint_small. lia. }
    destruct (invfactorial_at_ok (n + 2 * j)) as [inv Hinv]; [lia|].
    rewrite <- Hi in Hinv.
    rewrite (c_n_series_from_step _ _ _ _ _ _ Hinv). cbv zeta.
    destruct (abs _ <? _)%float.
    + eexists. reflexivity.
    + rewrite uint_small by lia. apply IH; lia.
Qed.

Lemma c_n_series_ok (n : Z) (z : float) :
  0 <= n <= 10 -> exists v, c_n_series pow n z = Ok v.
Proof.
  intros Hn. unfold c_n_series. apply c_n_series_from_ok; simpl; lia.
Qed.

End StumpffFacts.

(** ** The quadrupling reducer *)

Section Reducer.

Variable pow : float -> Z -> float.

(** The six Stumpff indices the reducer handles. *)
Lemma stumpff_index_cases (n : Z) :
  0 <= n <= 5 -> n = 0 \/ n = 1 \/ n = 2 \/ n = 3 \/ n = 4 \/ n = 5.
Proof. lia. Qed.

(** Below the threshold one level of [c] is the series. *)
Lemma c_small (depth : nat) (n : Z) (z : float) :
  (0.5 <? z)%float = false -> c pow (S depth) n z = c_n_series pow n z.
Proof. intros Hz. cbn [c]. rewrite Hz. reflexivity. Qed.

(** An index with no [case] label reaches the statement after the
    [switch]. *)
Lemma c_other_index (depth : nat) (n : Z) (z : float) :
  n < 0 \/ 6 <= n -> c pow (S depth) n z = c_n_series pow n z.
Proof.
  intros Hn. cbn [c]. destruct (0.5 <? z)%float; [|reflexivity].
  destruct n as [|p|p]; [lia| |reflexivity].
  destruct p as [[[q|q|]|[q|q|]|]|[[q|q|]|[q|q|]|]|];
    try reflexivity; lia.
Qed.

(** The reducer never reads outside the table for [n <= 5]. *)
Lemma c_in_bounds (depth : nat) :
  forall (n : Z) (z : float),
    0 <= n <= 5 -> c pow depth n z <> OutOfBounds.
Proof.
  induction depth as [|depth IH]; intros n z Hn.
  - discriminate.
  - cbn [c]. destruct (0.5 <? z)%float.
    + assert (H1 := IH 1 (z / 4)%float ltac:(lia)).
      assert (H2 := IH 2 (z / 4)%float ltac:(lia)).
      assert (H3 := IH 3 (z / 4)%float ltac:(lia)).
      assert (H4 := IH 4 (z / 4)%float ltac:(lia)).
      assert (H5 := IH 5 (z / 4)%float ltac:(lia)).
      destruct (stumpff_index_cases n Hn) as [->|[->|[->|[->|[->| ->]]]]];
        destruct (c pow depth 1 (z / 4)%float);
        destruct (c pow depth 2 (z / 4)%float);
        destruct (c pow depth 3 (z / 4)%float);
        destruct (c pow depth 4 (z / 4)%float);
        destruct (c pow depth 5 (z / 4)%float);
        simpl; congruence.
    + destruct (c_n_series_ok pow n z ltac:(lia)) as [v Hv].
      rewrite Hv. discriminate.
Qed.

(** A result of [c] does not depend on the budget that produced it. *)
Lemma c_depth_S (depth : nat) :
  forall (n : Z) (z v : float),
    c pow depth n z = Ok v -> c pow (S depth) n z = Ok v.
Proof.
  induction depth as [|depth IH]; intros n z v H.
  - discriminate.
  - cbn [c] in H. remember (S depth) as d eqn:Ed. cbn [c].
    destruct (0.5 <? z)%float; [|exact H].
    destruct n as [|p|p]; [| |exact H].
    + bind_inv H.
      repeat match goal with
             | E : c pow depth _ _ = Ok _ |- _ =>
                 rewrite (IH _ _ _ E); clear E
             end.
      exact H.
    + destruct p as [[[q|q|]|[q|q|]|]|[[q|q|]|[q|q|]|]|]; try exact H;
        bind_inv H;
        repeat match goal with
               | E : c pow depth _ _ = Ok _ |- _ =>
                   rewrite (IH _ _ _ E); clear E
               end;
        exact H.
Qed.

Lemma c_depth_le (d d' : nat) (n : Z) (z v : float) :
  (d <= d')%nat -> c pow d n z = Ok v -> c pow d' n z = Ok v.
Proof.
  intros Hle H. induction Hle as [|d' _ IH]; [exact H|].
  apply c_depth_S. exact IH.
Qed.

End Reducer.

(** ** Quartering an argument above one half *)

Module Quartering.

Import Binary64.

(** A finite binary64 value above 0.5 is a positive normal number. *)
Lemma gt_half_shape (z : float) :
  (0.5 <? z)%float = true -> is_finite z = true ->
  exists (mz : positive) (ez : Z),
    Prim2SF z = S754_finite false mz ez /\
    digits2_pos mz = 53%positive /\ -53 <= ez <= 971.
Proof.
  intros Hgt Hfin.
  pose proof (Prim2SF_valid z) as Hv.
  rewrite ltb_spec in Hgt.
  change (Prim2SF 0.5) with (S754_finite false 4503599627370496 (-53)) in Hgt.
  destruct (Prim2SF z) as [s|s| |s mz ez] eqn:E.
  - destruct s; discriminate.
  - destruct s; [discriminate|].
    assert (z = infinity) as ->
      by (apply Prim2SF_inj; rewrite E; reflexivity).
    discriminate.
  - discriminate.
  - destruct s; [discriminate|].
    unfold SFltb, SFcompare in Hgt.
    assert (He : -53 <= ez).
    { revert Hgt. destruct (Z.compare_spec (-53) ez); try lia; discriminate. }
    unfold SpecFloat.valid_binary, bounded, canonical_mantissa in Hv.
    unfold FloatOps.prec, FloatOps.emax in Hv.
    apply andb_true_iff in Hv. destruct Hv as [Hc Hb].
    apply Z.eqb_eq in Hc. apply Z.leb_le in Hb.
    unfold fexp, SpecFloat.emin in Hc.
    change IntDef.Z.max with Z.max in Hc.
    exists mz, ez. split; [reflexivity|].
    split; [|lia].
    assert (Z.pos (digits2_pos mz) = 53) as Hd by lia.
    congruence.
Qed.

(** Its quarter is the same mantissa two exponents lower. *)
Lemma quarter_exact (z : float) (mz : positive) (ez : Z) :
  Prim2SF z = S754_finite false mz ez ->
  digits2_pos mz = 53%positive -> -53 <= ez <= 971 ->
  Prim2SF (z / 4) = S754_finite false mz (ez - 2).
Proof.
  intros E Hd He. rewrite div_spec, E.
  change (Prim2SF 4) with (S754_finite false 4503599627370496 (-50)).
  apply SFdiv_quarter; assumption.
Qed.

(** A positive finite value of exponent below [-53] is at most 0.5. *)
Lemma small_exponent (z : float) (mz : positive) (ez : Z) :
  Prim2SF z = S754_finite false mz ez -> ez < -53 ->
  (0.5 <? z)%float = false.
Proof.
  intros E He. rewrite ltb_spec, E.
  change (Prim2SF 0.5) with (S754_finite false 4503599627370496 (-53)).
  unfold SFltb, SFcompare.
  destruct (Z.compare_spec (-53) ez); try lia; reflexivity.
Qed.

End Quartering.

Section ReducerTermination.

Variable pow : float -> Z -> float.

(** One level of [c] above the threshold returns once the six values
    at [z/4] are available. *)
Lemma c_level (depth : nat) (n : Z) (z : float) :
  0 <= n <= 5 ->
  (forall k, 0 <= k <= 5 -> exists v, c pow depth k (z / 4)%float = Ok v) ->
  exists v, c pow (S depth) n z = Ok v.
Proof.
  intros Hn Hq. cbn [c]. destruct (0.5 <? z)%float.
  - destruct (Hq 1 ltac:(lia)) as [v1 E1].
    destruct (Hq 2 ltac:(lia)) as [v2 E2].
    destruct (Hq 3 ltac:(lia)) as [v3 E3].
    destruct (Hq 4 ltac:(lia)) as [v4 E4].
    destruct (Hq 5 ltac:(lia)) as [v5 E5].
    destruct (stumpff_index_cases n Hn) as [->|[->|[->|[->|[->| ->]]]]];
      rewrite ?E1, ?E2, ?E3, ?E4, ?E5; simpl; eexists; reflexivity.
  - apply c_n_series_ok. lia.
Qed.

(** A positive normal argument of exponent below [-53 + 2 d] needs at
    most [d] nested quarterings. *)
Lemma c_terminates_by_exponent (d : nat) :
  forall (z : float) (mz : positive) (ez : Z),
    Prim2SF z = S754_finite false mz ez ->
    digits2_pos mz = 53%positive -> ez <= 971 ->
    ez < -53 + 2 * Z.of_nat d ->
    forall n, 0 <= n <= 5 -> exists v, c pow (S d) n z = Ok v.
Proof.
  induction d as [|d IH]; intros z mz ez E Hd Hmax He n Hn.
  - rewrite c_small.
    + apply c_n_series_ok. lia.
    + apply (Quartering.small_exponent z mz ez E). lia.
  - destruct (0.5 <? z)%float eqn:Hz.
    + destruct (Z_lt_le_dec ez (-53)) as [Hlow|Hhigh].
      * rewrite (Quartering.small_exponent z mz ez E Hlow) in Hz.
        discriminate.
      * apply c_level; [exact Hn|].
        intros k Hk.
        apply (IH (z / 4)%float mz (ez - 2)); try lia; try assumption.
        apply Quartering.quarter_exact; try assumption. lia.
    + rewrite c_small by exact Hz. apply c_n_series_ok. lia.
Qed.

End ReducerTermination.

(** ** The reducer: what the specification states *)

Section ReducerClaims.

Variable pow : float -> Z -> float.

(** C5.  For [n] in 0..5: when [z <= 0.5] (every negative [z]
    included) [c(n, z)] is [c_n_series(n, z)]; when [z > 0.5] it is
    the value the fixed recurrences give from the values of [c] at
    [z/4]: c4(z) = c3(z/4)(1+c1(z/4))/8, c2(z) = 1/2 - z c4(z),
    c0(z) = 1 - z c2(z), c5(z) = (c5(z/4)+c4(z/4)+c3(z/4) c2(z/4))/16,
    c3(z) = 1/6 - z c5(z), c1(z) = 1 - z c3(z). *)
Theorem c_quadrupling (depth : nat) (n : Z) (z : float) :
  0 <= n <= 5 ->
  ((z <=? 0.5)%float = true ->
   c pow (S depth) n z = c_n_series pow n z) /\
  ((z <? 0)%float = true ->
   c pow (S depth) n z = c_n_series pow n z) /\
  ((0.5 <? z)%float = true ->
   c pow (S depth) n z =
   stumpff_recurrence (fun k => c pow depth k (z / 4)%float)
                      (fun k => c pow (S depth) k z) n z).
Proof.
  intros Hn. split; [|split]; intros Hz.
  - apply c_small. apply Binary64.leb_not_gt. exact Hz.
  - apply c_small. apply Binary64.negative_not_gt_half. exact Hz.
  - destruct (stumpff_index_cases n Hn) as [->|[->|[->|[->|[->| ->]]]]];
      cbn [c stumpff_recurrence]; rewrite Hz;
      repeat match goal with
             | |- context [c pow depth ?k ?a] =>
                 destruct (c pow depth k a); simpl; try reflexivity
             end.
Qed.

(** C7.  For [n] in 0..5 and every finite [z] the evaluation of
    [c(n, z)] returns: a level of the recursion returns as soon as the
    calls at [z/4] do, and 514 nested levels are enough for every
    finite binary64 argument, the quotient by 4 of a value above 0.5
    being exact. *)
Theorem c_terminates (n : Z) (z : float) :
  0 <= n <= 5 -> is_finite z = true ->
  (exists v, forall depth, (514 <= depth)%nat -> c pow depth n z = Ok v) /\
  (forall depth,
      (forall k, 0 <= k <= 5 ->
                 exists v, c pow depth k (z / 4)%float = Ok v) ->
      exists v, c pow (S depth) n z = Ok v).
Proof.
  intros Hn Hfin. split; [|intros depth Hq; apply c_level; assumption].
  assert (exists v, c pow 514 n z = Ok v) as [v Hv].
  { destruct (0.5 <? z)%float eqn:Hz.
    - destruct (Quartering.gt_half_shape z Hz Hfin)
        as [mz [ez [E [Hd He]]]].
      apply (c_terminates_by_exponent pow 513 z mz ez); try assumption; lia.
    - rewrite c_small by exact Hz. apply c_n_series_ok. lia. }
  exists v. intros depth Hd. apply (c_depth_le pow 514); assumption.
Qed.

(** C8.  Under [n <= 5] every index [n + 2 j] that [c_n_series]
    requests ([j <= 12], so at most 29) lies inside the 35-entry
    table, also when the call is reached through the recursion of
    [c]: no run reads outside the table. *)
Theorem table_reads_in_bounds (n : Z) :
  0 <= n <= 5 ->
  length invfactorial = 35%nat /\
  (forall j, 0 <= j <= 12 ->
     0 <= uint (n + uint (2 * j)) <= 29 /\
     exists v, invfactorial_at (uint (n + uint (2 * j))) = Ok v) /\
  (forall z, exists v, c_n_series pow n z = Ok v) /\
  (forall depth z, c pow depth n z <> OutOfBounds).
Proof.
  intros Hn. split; [reflexivity|]. split; [|split].
  - intros j Hj.
    assert (Hi : uint (n + uint (2 * j)) = n + 2 * j).
    { rewrite (uint_small (2 * j)) by lia. apply uint_small. lia. }
    rewrite Hi. split; [lia|]. apply invfactorial_at_ok. lia.
  - intros z. apply c_n_series_ok. lia.
  - intros depth z. apply c_in_bounds. exact Hn.
Qed.

(** C10.  For [n >= 6] and [z > 0.5], [c(n, z)] is
    [c_n_series(n, z)]: the [switch] has no [default], so such an
    index falls through to the series. *)
Theorem c_no_default (depth : nat) (n : Z) (z : float) :
  6 <= n -> (0.5 <? z)%float = true ->
  c pow (S depth) n z = c_n_series pow n z.
Proof.
  intros Hn _. apply c_other_index. right. exact Hn.
Qed.

End ReducerClaims.

Lemma c_quadrupling_witness :
  c pow_model 1 0 0.25 = c_n_series pow_model 0 0.25 /\
  c pow_model 1 0 (-3) = c_n_series pow_model 0 (-3) /\
  c pow_model 2 0 2 =
  stumpff_recurrence (fun k => c pow_model 1 k (2 / 4)%float)
                     (fun k => c pow_model 2 k 2) 0 2.
Proof.
  split; [|split].
  - apply (proj1 (c_quadrupling pow_model 0 0 0.25 ltac:(lia))).
    reflexivity.
  - apply (proj1 (proj2 (c_quadrupling pow_model 0 0 (-3) ltac:(lia)))).
    reflexivity.
  - apply (proj2 (proj2 (c_quadrupling pow_model 1 0 2 ltac:(lia)))).
    reflexivity.
Defined.

Lemma c_terminates_witness :
  exists v, forall depth, (514 <= depth)%nat -> c pow_model depth 0 100 = Ok v.
Proof.
  apply (proj1 (c_terminates pow_model 0 100 ltac:(lia) eq_refl)).
Defined.

Lemma table_reads_in_bounds_witness :
  length invfactorial = 35%nat /\
  (forall j, 0 <= j <= 12 ->
     0 <= uint (5 + uint (2 * j)) <= 29 /\
     exists v, invfactorial_at (uint (5 + uint (2 * j))) = Ok v) /\
  (forall z, exists v, c_n_series pow_model 5 z = Ok v) /\
  (forall depth z, c pow_model depth 5 z <> OutOfBounds).
Proof.
  apply (table_reads_in_bounds pow_model 5). lia.
Defined.

Lemma c_no_default_witness :
  c pow_model 1 6 1 = c_n_series pow_model 6 1.
Proof.
  apply (c_no_default pow_model 0 6 1); [lia | reflexivity].
Defined.

(** ** The particle array *)

Lemma replace_nth_length (ps : list particle) :
  forall k p, length (replace_nth ps k p) = length ps.
Proof.
  induction ps as [|q tl IH]; intros [|k] p; simpl; try reflexivity.
  rewrite IH. reflexivity.
Qed.

Lemma nth_error_replace_same (ps : list particle) :
  forall k p, (k < length ps)%nat ->
              nth_error (replace_nth ps k p) k = Some p.
Proof.
  induction ps as [|q tl IH]; intros [|k] p H; simpl in *; try lia.
  - reflexivity.
  - apply IH. lia.
Qed.

Lemma nth_error_replace_other (ps : list particle) :
  forall k k' p, k <> k' ->
                 nth_error (replace_nth ps k p) k' = nth_error ps k'.
Proof.
  induction ps as [|q tl IH]; intros [|k] [|k'] p H; simpl;
    try reflexivity; try congruence.
  apply IH. congruence.
Qed.

Lemma replace_nth_twice (ps : list particle) :
  forall k p q, replace_nth (replace_nth ps k p) k q = replace_nth ps k q.
Proof.
  induction ps as [|r tl IH]; intros [|k] p q; simpl; try reflexivity.
  rewrite IH. reflexivity.
Qed.

Lemma load_in_range (ps : list particle) (i : Z) (p : particle) :
  load ps i = Ok p -> 0 <= i /\ (Z.to_nat i < length ps)%nat.
Proof.
  unfold load. destruct (Z.ltb_spec i 0); [discriminate|].
  destruct (nth_error ps (Z.to_nat i)) eqn:E; [|discriminate].
  intros _. split; [lia|]. apply nth_error_Some. congruence.
Qed.

Lemma store_in_range (ps : list particle) (i : Z) (p : particle) :
  0 <= i -> (Z.to_nat i < length ps)%nat ->
  store ps i p = Ok (replace_nth ps (Z.to_nat i) p).
Proof.
  intros H0 H1. unfold store.
  destruct (Z.ltb_spec i 0); [lia|].
  destruct (Nat.ltb_spec (Z.to_nat i) (length ps)); [reflexivity|lia].
Qed.

Lemma load_replace_same (ps : list particle) (i : Z) (p : particle) :
  0 <= i -> (Z.to_nat i < length ps)%nat ->
  load (replace_nth ps (Z.to_nat i) p) i = Ok p.
Proof.
  intros H0 H1. unfold load.
  destruct (Z.ltb_spec i 0); [lia|].
  rewrite nth_error_replace_same by exact H1. reflexivity.
Qed.

Lemma load_replace_other (ps : list particle) (i j : Z) (p : particle) :
  0 <= i -> 0 <= j -> i <> j ->
  load (replace_nth ps (Z.to_nat i) p) j = load ps j.
Proof.
  intros Hi Hj Hne. unfold load.
  destruct (Z.ltb_spec j 0); [lia|].
  rewrite nth_error_replace_other by lia. reflexivity.
Qed.

(** An assignment to a field of a particle in range replaces that
    particle and nothing else. *)
Lemma assign_in_range (ps : list particle) (i : Z) (p : particle)
      (set_fld : particle -> float -> particle) (rhs : particle -> float) :
  load ps i = Ok p ->
  assign ps i set_fld rhs = Ok (replace_nth ps (Z.to_nat i) (set_fld p (rhs p))).
Proof.
  intros H. unfold assign. rewrite H. cbn [bind].
  apply load_in_range in H. destruct H as [H0 H1].
  apply store_in_range; assumption.
Qed.

Lemma assign_replaced (ps : list particle) (i : Z) (p : particle)
      (set_fld : particle -> float -> particle) (rhs : particle -> float) :
  0 <= i -> (Z.to_nat i < length ps)%nat ->
  assign (replace_nth ps (Z.to_nat i) p) i set_fld rhs =
  Ok (replace_nth ps (Z.to_nat i) (set_fld p (rhs p))).
Proof.
  intros Hi Hlen.
  rewrite (assign_in_range _ i p) by (apply load_replace_same; assumption).
  rewrite replace_nth_twice. reflexivity.
Qed.

(** ** The Kepler step, once the iteration has returned *)

Section Step.

Variable pow : float -> Z -> float.
Variables (depth fuel : nat) (i : Z) (st : sim).
Variables (p0 p1 : particle) (X G1 G2 G3 : float).

Let M := m p0.
Let r0 := sqrt (x p1 * x p1 + y p1 * y p1 + z p1 * z p1)%float.
Let v2 := (vx p1 * vx p1 + vy p1 * vy p1 + vz p1 * vz p1)%float.
Let beta := (2 * M / r0 - v2)%float.
Let eta := (x p1 * vx p1 + y p1 * vy p1 + z p1 * vz p1)%float.
Let zeta := (M - beta * r0)%float.

Hypothesis central : load (particles st) 0 = Ok p0.
Hypothesis body : load (particles st) i = Ok p1.
Hypothesis converged :
  kepler_newton pow depth fuel r0 eta zeta beta (dt st) 0%float = Ok X.
Hypothesis at_G1 : integrator_G pow depth 1 beta X = Ok G1.
Hypothesis at_G2 : integrator_G pow depth 2 beta X = Ok G2.
Hypothesis at_G3 : integrator_G pow depth 3 beta X = Ok G3.

Let r := (r0 + eta * G1 + zeta * G2)%float.
Let f := (1 - M * G2 / r0)%float.
Let g := (dt st - M * G3)%float.
Let fd := ((- M) * G1 / (r0 * r))%float.
Let gd := (1 - M * G2 / r)%float.

(** The body after the six assignments. *)
Let new_x := (f * x p1 + g * vx p1)%float.
Let new_y := (f * y p1 + g * vy p1)%float.
Let new_z := (f * z p1 + g * vz p1)%float.
Let p1' : particle :=
  mkParticle new_x new_y new_z
             (fd * new_x + gd * vx p1)%float
             (fd * new_y + gd * vy p1)%float
             (fd * new_z + gd * vz p1)%float
             (m p1).

Lemma kepler_step_run :
  kepler_step pow depth fuel i st =
  Ok (mkSim (replace_nth (particles st) (Z.to_nat i) p1')
            (N st) (t st) (dt st)).
Proof.
  destruct (load_in_range _ _ _ body) as [Hi Hlen].
  unfold kepler_step.
  rewrite central. cbn [bind]. rewrite body. cbn [bind].
  fold M r0 v2 beta eta zeta.
  rewrite converged. cbn [bind].
  rewrite at_G1, at_G2, at_G3. cbn [bind].
  fold r f g fd gd.
  rewrite (assign_in_range _ _ _ _ _ body). cbn [bind].
  do 5 (rewrite (assign_replaced _ _ _ _ _ Hi Hlen); cbn [bind]).
  reflexivity.
Qed.

(** C4.  After the iteration has returned [X], [kepler_step]
    evaluates G1, G2, G3 at that [X], forms
    r = r0 + eta G1 + zeta G2, f = 1 - M G2/r0, g = dt - M G3,
    fd = -M G1/(r0 r), gd = 1 - M G2/r, and sets each position
    component to f * (old position) + g * (old velocity), the old
    values being those of the body before the step; fd and gd then
    give the velocity, and the mass is kept. *)
Theorem kepler_step_position :
  exists (st' : sim) (q : particle),
    kepler_step pow depth fuel i st = Ok st' /\
    load (particles st') i = Ok q /\
    x q = (f * x p1 + g * vx p1)%float /\
    y q = (f * y p1 + g * vy p1)%float /\
    z q = (f * z p1 + g * vz p1)%float /\
    vx q = (fd * x q + gd * vx p1)%float /\
    vy q = (fd * y q + gd * vy p1)%float /\
    vz q = (fd * z q + gd * vz p1)%float /\
    m q = m p1.
Proof.
  destruct (load_in_range _ _ _ body) as [Hi Hlen].
  eexists. exists p1'. split; [apply kepler_step_run|].
  cbn [particles]. split; [|repeat split].
  apply load_replace_same; assumption.
Qed.

(** C2.  The velocity update is fd * P + gd * (old velocity),
    component by component, where P is the position the step has
    just written, f * (old position) + g * (old velocity), and not
    the position before the step. *)
Theorem kepler_step_velocity :
  exists (st' : sim) (q : particle),
    kepler_step pow depth fuel i st = Ok st' /\
    load (particles st') i = Ok q /\
    vx q = (fd * (f * x p1 + g * vx p1) + gd * vx p1)%float /\
    vy q = (fd * (f * y p1 + g * vy p1) + gd * vy p1)%float /\
    vz q = (fd * (f * z p1 + g * vz p1) + gd * vz p1)%float /\
    vx q = (fd * x q + gd * vx p1)%float /\
    vy q = (fd * y q + gd * vy p1)%float /\
    vz q = (fd * z q + gd * vz p1)%float.
Proof.
  destruct (load_in_range _ _ _ body) as [Hi Hlen].
  eexists. exists p1'. split; [apply kepler_step_run|].
  cbn [particles]. split; [|repeat split].
  apply load_replace_same; assumption.
Qed.

End Step.

Lemma kepler_step_position_witness :
  exists (st' : sim) (q : particle),
    kepler_step pow_model 1 3 1 (two_body 0.5) = Ok st' /\
    load (particles st') 1 = Ok q /\
    x q = 0.87758256189037276%float /\
    y q = 0.47942553860420301%float /\
    z q = 0%float /\
    vx q = (-0.47942553860420301 * x q + 0.87758256189037276 * 0)%float /\
    vy q = (-0.47942553860420301 * y q + 0.87758256189037276 * 1)%float /\
    vz q = (-0.47942553860420301 * z q + 0.87758256189037276 * 0)%float /\
    m q = 0%float.
Proof.
  exact (kepler_step_position pow_model 1 3 1 (two_body 0.5) sun planet
           0.5 0.47942553860420301 0.12241743810962727 0.020574461395797005
           eq_refl eq_refl eq_refl eq_refl eq_refl eq_refl).
Defined.

Lemma kepler_step_velocity_witness :
  exists (st' : sim) (q : particle),
    kepler_step pow_model 1 3 1 (two_body 0.5) = Ok st' /\
    load (particles st') 1 = Ok q /\
    vx q = (-0.42073549240394825)%float /\
    vy q = 0.64773371482444264%float /\
    vz q = 0%float /\
    vx q = (-0.47942553860420301 * x q + 0.87758256189037276 * 0)%float /\
    vy q = (-0.47942553860420301 * y q + 0.87758256189037276 * 1)%float /\
    vz q = (-0.47942553860420301 * z q + 0.87758256189037276 * 0)%float.
Proof.
  exact (kepler_step_velocity pow_model 1 3 1 (two_body 0.5) sun planet
           0.5 0.47942553860420301 0.12241743810962727 0.020574461395797005
           eq_refl eq_refl eq_refl eq_refl eq_refl eq_refl).
Defined.

(** ** The stand-in for [pow] *)

Lemma pow_iter_neg_zero (k : nat) :
  pow_iter neg_zero (S k) = if Nat.odd (S k) then neg_zero else 0%float.
Proof.
  induction k as [|k IH]; [reflexivity|].
  change (pow_iter neg_zero (S (S k)))
    with (neg_zero * pow_iter neg_zero (S k))%float.
  rewrite IH. rewrite !Nat.odd_succ, Nat.even_succ, <- Nat.negb_even.
  destruct (Nat.even k); reflexivity.
Qed.

Lemma pow_iter_pos_zero (k : nat) : pow_iter 0%float (S k) = 0%float.
Proof.
  induction k as [|k IH]; [reflexivity|].
  change (pow_iter 0%float (S (S k)))
    with (0 * pow_iter 0%float (S k))%float.
  rewrite IH. reflexivity.
Qed.

Lemma even_of_nat (a : nat) : Z.even (Z.of_nat a) = Nat.even a.
Proof.
  induction a as [|a IH]; [reflexivity|].
  rewrite Nat2Z.inj_succ, Z.even_succ, Nat.even_succ.
  rewrite <- Z.negb_even, <- Nat.negb_even, IH. reflexivity.
Qed.

Lemma pow_model_annex_f : pow_annex_f pow_model.
Proof.
  split.
  - intros x. reflexivity.
  - intros j Hj. unfold pow_model.
    destruct (Z.to_nat j) as [|k] eqn:E; [lia|]. apply pow_iter_pos_zero.
  - intros j Hj Hodd. unfold pow_model.
    destruct (Z.to_nat j) as [|k] eqn:E; [lia|].
    rewrite pow_iter_neg_zero. rewrite <- E.
    assert (Nat.odd (Z.to_nat j) = Z.odd j) as ->; [|rewrite Hodd; reflexivity].
    rewrite <- (Z2Nat.id j) at 2 by lia.
    generalize (Z.to_nat j). intros a.
    rewrite <- Nat.negb_even, <- Z.negb_even. f_equal.
    symmetry. apply even_of_nat.
  - intros j Hj Hodd. unfold pow_model.
    destruct (Z.to_nat j) as [|k] eqn:E; [lia|].
    rewrite pow_iter_neg_zero. rewrite <- E.
    assert (Nat.odd (Z.to_nat j) = Z.odd j) as ->; [|rewrite Hodd; reflexivity].
    rewrite <- (Z2Nat.id j) at 2 by lia.
    generalize (Z.to_nat j). intros a.
    rewrite <- Nat.negb_even, <- Z.negb_even. f_equal.
    symmetry. apply even_of_nat.
Qed.

Lemma pow_rough_annex_f : pow_annex_f pow_rough.
Proof.
  destruct pow_model_annex_f as [H0 Hp Ho He].
  constructor.
  - intros x. unfold pow_rough. cbn [Z.eqb andb]. apply H0.
  - intros j Hj. unfold pow_rough.
    change (is_zero 0) with true. cbn [negb]. rewrite andb_false_r.
    apply Hp. exact Hj.
  - intros j Hj Hodd. unfold pow_rough.
    change (is_zero neg_zero) with true. cbn [negb]. rewrite andb_false_r.
    apply Ho; assumption.
  - intros j Hj Hodd. unfold pow_rough.
    change (is_zero neg_zero) with true. cbn [negb]. rewrite andb_false_r.
    apply He; assumption.
Qed.

(** ** The Newton loop *)

Section NewtonLoop.

Variable pow : float -> Z -> float.

(** A step that returns has entered the loop at [X = 0], left it
    with some [X], and evaluated G1, G2, G3 there. *)
Lemma kepler_step_inv (depth fuel : nat) (i : Z) (st st' : sim) :
  kepler_step pow depth fuel i st = Ok st' ->
  exists (p0 p1 : particle) (X G1 G2 G3 : float),
    load (particles st) 0 = Ok p0 /\
    load (particles st) i = Ok p1 /\
    let M := m p0 in
    let r0 := sqrt (x p1 * x p1 + y p1 * y p1 + z p1 * z p1)%float in
    let v2 := (vx p1 * vx p1 + vy p1 * vy p1 + vz p1 * vz p1)%float in
    let beta := (2 * M / r0 - v2)%float in
    let eta := (x p1 * vx p1 + y p1 * vy p1 + z p1 * vz p1)%float in
    let zeta := (M - beta * r0)%float in
    kepler_newton pow depth fuel r0 eta zeta beta (dt st) 0%float = Ok X /\
    integrator_G pow depth 1 beta X = Ok G1 /\
    integrator_G pow depth 2 beta X = Ok G2 /\
    integrator_G pow depth 3 beta X = Ok G3.
Proof.
  unfold kepler_step. intros H.
  apply bind_Ok in H. destruct H as [p0 [E0 H]].
  apply bind_Ok in H. destruct H as [p1 [E1 H]].
  apply bind_Ok in H. destruct H as [X [EX H]].
  apply bind_Ok in H. destruct H as [G1 [EG1 H]].
  apply bind_Ok in H. destruct H as [G2 [EG2 H]].
  apply bind_Ok in H. destruct H as [G3 [EG3 H]].
  exists p0, p1, X, G1, G2, G3. cbv zeta. repeat split; assumption.
Qed.

(** One pass of the loop. *)
Lemma kepler_newton_pass (depth fuel : nat)
      (r0 eta zeta beta dt X G1 G2 G3 : float) :
  integrator_G pow depth 1 beta X = Ok G1 ->
  integrator_G pow depth 2 beta X = Ok G2 ->
  integrator_G pow depth 3 beta X = Ok G3 ->
  kepler_newton pow depth (S fuel) r0 eta zeta beta dt X =
  let s := (r0 * X + eta * G2 + zeta * G3 - dt)%float in
  let sp := (r0 + eta * G1 + zeta * G2)%float in
  let dX := ((- s) / sp)%float in
  if (abs (dX / (X + dX)) <? 1e-15)%float then Ok (X + dX)%float
  else kepler_newton pow depth fuel r0 eta zeta beta dt (X + dX)%float.
Proof.
  intros H1 H2 H3. cbn [kepler_newton]. rewrite H1, H2, H3. reflexivity.
Qed.

End NewtonLoop.

(** ** A step of zero length *)

Section ZeroStep.

Variable pow : float -> Z -> float.
Hypothesis annex_f : pow_annex_f pow.

(** At [z = 0] the series stops after its second term. *)
Lemma c_n_series_at_zero (n : Z) (a b : float) :
  invfactorial_at (uint (n + uint (2 * 0))) = Ok a ->
  invfactorial_at (uint (n + uint (2 * 1))) = Ok b ->
  (abs (1 * a / (0 + 1 * a)) <? 1e-17)%float = false ->
  (abs (neg_zero * b / (0 + 1 * a + neg_zero * b)) <? 1e-17)%float = true ->
  c_n_series pow n 0 = Ok (0 + 1 * a + neg_zero * b)%float.
Proof.
  intros Ha Hb T0 T1. unfold c_n_series.
  rewrite (c_n_series_from_step pow 12 0 n 0 0 a Ha). cbv zeta.
  rewrite (pow_exponent_zero pow annex_f). rewrite T0.
  change (uint (0 + 1)) with 1.
  rewrite (c_n_series_from_step pow 11 1 n 0 _ b Hb). cbv zeta.
  change (- 0)%float with neg_zero.
  rewrite (pow_neg_zero_odd pow annex_f 1) by (reflexivity || lia).
  rewrite T1. reflexivity.
Qed.

(** So it does at [z = -0]. *)
Lemma c_n_series_at_neg_zero (n : Z) (a b : float) :
  invfactorial_at (uint (n + uint (2 * 0))) = Ok a ->
  invfactorial_at (uint (n + uint (2 * 1))) = Ok b ->
  (abs (1 * a / (0 + 1 * a)) <? 1e-17)%float = false ->
  (abs (0 * b / (0 + 1 * a + 0 * b)) <? 1e-17)%float = true ->
  c_n_series pow n neg_zero = Ok (0 + 1 * a + 0 * b)%float.
Proof.
  intros Ha Hb T0 T1. unfold c_n_series.
  rewrite (c_n_series_from_step pow 12 0 n neg_zero 0 a Ha). cbv zeta.
  rewrite (pow_exponent_zero pow annex_f). rewrite T0.
  change (uint (0 + 1)) with 1.
  rewrite (c_n_series_from_step pow 11 1 n neg_zero _ b Hb). cbv zeta.
  change (- neg_zero)%float with 0%float.
  rewrite (pow_pos_zero pow annex_f 1) by lia.
  rewrite T1. reflexivity.
Qed.

(** The closed forms at zero: c0(0) = 1, c1(0) = 1, c2(0) = 1/2,
    c3(0) = 1/6, each the first term of its series. *)
Theorem stumpff_at_zero (depth : nat) :
  c pow (S depth) 0 0 = Ok 1%float /\
  c pow (S depth) 1 0 = Ok 1%float /\
  c pow (S depth) 2 0 = Ok 0.5%float /\
  c pow (S depth) 3 0 = Ok (1 / 6)%float.
Proof.
  rewrite !c_small by reflexivity.
  rewrite (c_n_series_at_zero 0 1 (1 / 2)) by reflexivity.
  rewrite (c_n_series_at_zero 1 1 (1 / 6)) by reflexivity.
  rewrite (c_n_series_at_zero 2 (1 / 2) (1 / 24)) by reflexivity.
  rewrite (c_n_series_at_zero 3 (1 / 6) (1 / 120)) by reflexivity.
  repeat split.
Qed.

(** At [X = 0] and a finite [beta], G1, G2 and G3 return, and are 0. *)
Lemma integrator_G_zero_X (depth : nat) (beta : float) :
  is_finite beta = true ->
  integrator_G pow (S depth) 1 beta 0 = Ok 0%float /\
  integrator_G pow (S depth) 2 beta 0 = Ok 0%float /\
  integrator_G pow (S depth) 3 beta 0 = Ok 0%float.
Proof.
  intros Hb. unfold integrator_G.
  rewrite !(pow_pos_zero pow annex_f) by lia.
  destruct (Zeros.mul_zero_r beta Hb) as [-> | ->].
  - change (0 * 0)%float with 0%float.
    rewrite !c_small by reflexivity.
    rewrite (c_n_series_at_zero 1 1 (1 / 6)) by reflexivity.
    rewrite (c_n_series_at_zero 2 (1 / 2) (1 / 24)) by reflexivity.
    rewrite (c_n_series_at_zero 3 (1 / 6) (1 / 120)) by reflexivity.
    repeat split.
  - change (neg_zero * 0)%float with neg_zero.
    rewrite !c_small by reflexivity.
    rewrite (c_n_series_at_neg_zero 1 1 (1 / 6)) by reflexivity.
    rewrite (c_n_series_at_neg_zero 2 (1 / 2) (1 / 24)) by reflexivity.
    rewrite (c_n_series_at_neg_zero 3 (1 / 6) (1 / 120)) by reflexivity.
    repeat split.
Qed.

(** With [dt] a zero, a pass entered at [X = +0] finds [s] a zero,
    [sp = r0], [dX] a zero and the new [X] again [+0]; [fabs(dX/X)] is
    then NaN, which is not below [1e-15], and the next pass is the
    same. *)
Lemma kepler_newton_zero_dt (depth fuel : nat) (r0 eta zeta beta dt : float) :
  is_finite r0 = true -> is_zero r0 = false ->
  is_finite beta = true -> is_finite eta = true -> is_finite zeta = true ->
  is_zero dt = true ->
  kepler_newton pow depth fuel r0 eta zeta beta dt 0 = OutOfFuel.
Proof.
  intros Hr Hrz Hb He Hz Hdt.
  destruct depth as [|depth].
  - destruct fuel; reflexivity.
  - destruct (integrator_G_zero_X depth beta Hb) as [H1 [H2 H3]].
    induction fuel as [|fuel IH]; [reflexivity|].
    rewrite (kepler_newton_pass pow (S depth) fuel r0 eta zeta beta dt 0 0 0 0
               H1 H2 H3).
    cbv zeta.
    rewrite (Zeros.add_zero_r (r0 + eta * 0) (zeta * 0))
      by (rewrite ?Zeros.add_zero_r; auto using Zeros.mul_zero_r).
    rewrite (Zeros.add_zero_r r0 (eta * 0)) by auto using Zeros.mul_zero_r.
    destruct (Zeros.mul_zero_r r0 Hr) as [-> | ->];
      destruct (Zeros.mul_zero_r eta He) as [-> | ->];
      destruct (Zeros.mul_zero_r zeta Hz) as [-> | ->];
      destruct (Zeros.is_zero_cases dt Hdt) as [-> | ->];
      match goal with
      | |- context [(?s / r0)%float] =>
          destruct (Zeros.div_zero_l r0 s Hr Hrz
                      ltac:(first [left; reflexivity | right; reflexivity]))
            as [-> | ->]
      end;
      exact IH.
Qed.

(** C1 (what the code does).  With [dt = 0], for every body whose
    distance r0 to the centre is finite and not zero and whose beta,
    eta and zeta are finite, [kepler_step] never returns, whatever the
    budgets: the state is never written, and the step the
    specification asks for, which returns with the body unchanged
    (X = 0, f = 1, g = 0, fd = 0, gd = 1), does not take place. *)
Theorem kepler_step_zero_dt_never_returns
        (depth fuel : nat) (i : Z) (st : sim) (p0 p1 : particle) :
  load (particles st) 0 = Ok p0 ->
  load (particles st) i = Ok p1 ->
  is_zero (dt st) = true ->
  let M := m p0 in
  let r0 := sqrt (x p1 * x p1 + y p1 * y p1 + z p1 * z p1)%float in
  let v2 := (vx p1 * vx p1 + vy p1 * vy p1 + vz p1 * vz p1)%float in
  let beta := (2 * M / r0 - v2)%float in
  let eta := (x p1 * vx p1 + y p1 * vy p1 + z p1 * vz p1)%float in
  let zeta := (M - beta * r0)%float in
  is_finite r0 = true -> is_zero r0 = false ->
  is_finite beta = true -> is_finite eta = true -> is_finite zeta = true ->
  kepler_step pow depth fuel i st = OutOfFuel.
Proof.
  intros E0 E1 Hdt M r0 v2 beta eta zeta Hr Hrz Hb He Hz.
  unfold kepler_step. rewrite E0. cbn [bind]. rewrite E1. cbn [bind].
  fold M r0 v2 beta eta zeta.
  rewrite kepler_newton_zero_dt by assumption. reflexivity.
Qed.

End ZeroStep.

Lemma stumpff_at_zero_witness :
  c pow_model 1 0 0 = Ok 1%float /\
  c pow_model 1 1 0 = Ok 1%float /\
  c pow_model 1 2 0 = Ok 0.5%float /\
  c pow_model 1 3 0 = Ok (1 / 6)%float.
Proof.
  exact (stumpff_at_zero pow_model pow_model_annex_f 0).
Defined.

Lemma kepler_step_zero_dt_never_returns_witness :
  kepler_step pow_model 1 1000 1 (two_body 0) = OutOfFuel.
Proof.
  exact (kepler_step_zero_dt_never_returns pow_model pow_model_annex_f
           1 1000 1 (two_body 0) sun planet
           eq_refl eq_refl eq_refl eq_refl eq_refl eq_refl eq_refl eq_refl).
Defined.

(** Had the loop left with [X = 0], the coefficients would have been
    f = 1, g = 0, fd = -0, gd = 1 and the body would have kept its
    state. *)
Example gauss_coefficients_at_zero :
  let M := 1%float in let r0 := 1%float in let dt := 0%float in
  let G1 := 0%float in let G2 := 0%float in let G3 := 0%float in
  let r := (r0 + 0 * G1 + 0 * G2)%float in
  (1 - M * G2 / r0 = 1)%float /\ (dt - M * G3 = 0)%float /\
  ((- M) * G1 / (r0 * r) = neg_zero)%float /\ (1 - M * G2 / r = 1)%float.
Proof. repeat split. Qed.

(** ** The Newton iteration *)

Section Newton.

Variable pow : float -> Z -> float.

(** C3.  [kepler_step] solves s(X) = r0 X + eta G2(X) + zeta G3(X) - dt
    = 0 by Newton's method.  Whenever both bodies are in the array, the
    step is the loop entered at [X = 0], followed by G1, G2, G3 at the
    [X] the loop leaves with and by the write of the body: the step
    returns when the loop does and runs on when the loop does.  A pass
    at [X] forms s and sp = r0 + eta G1(X) + zeta G2(X), moves to
    X - s/sp, and leaves exactly when |dX / X| < 1e-15 for the new
    [X]; otherwise it goes on, whatever the number of passes made.
    There is no cap: with [dt = 0] and finite r0 <> 0, beta, eta, zeta,
    G1, G2, G3 return at every pass and the loop never leaves. *)
Theorem kepler_newton_method :
  (forall depth fuel i st p0 p1,
      load (particles st) 0 = Ok p0 ->
      load (particles st) i = Ok p1 ->
      let M := m p0 in
      let r0 := sqrt (x p1 * x p1 + y p1 * y p1 + z p1 * z p1)%float in
      let v2 := (vx p1 * vx p1 + vy p1 * vy p1 + vz p1 * vz p1)%float in
      let beta := (2 * M / r0 - v2)%float in
      let eta := (x p1 * vx p1 + y p1 * vy p1 + z p1 * vz p1)%float in
      let zeta := (M - beta * r0)%float in
      kepler_step pow depth fuel i st =
      (X <- kepler_newton pow depth fuel r0 eta zeta beta (dt st) 0%float ;;
       G1 <- integrator_G pow depth 1 beta X ;;
       G2 <- integrator_G pow depth 2 beta X ;;
       G3 <- integrator_G pow depth 3 beta X ;;
       let r := (r0 + eta * G1 + zeta * G2)%float in
       let f := (1 - M * G2 / r0)%float in
       let g := (dt st - M * G3)%float in
       let fd := ((- M) * G1 / (r0 * r))%float in
       let gd := (1 - M * G2 / r)%float in
       let new_x := (f * x p1 + g * vx p1)%float in
       let new_y := (f * y p1 + g * vy p1)%float in
       let new_z := (f * z p1 + g * vz p1)%float in
       Ok (mkSim (replace_nth (particles st) (Z.to_nat i)
                    (mkParticle new_x new_y new_z
                                (fd * new_x + gd * vx p1)%float
                                (fd * new_y + gd * vy p1)%float
                                (fd * new_z + gd * vz p1)%float
                                (m p1)))
                 (N st) (t st) (dt st)))) /\
  (forall depth fuel i st st',
      kepler_step pow depth fuel i st = Ok st' ->
      exists (p0 p1 : particle) (X : float),
        load (particles st) 0 = Ok p0 /\
        load (particles st) i = Ok p1 /\
        let M := m p0 in
        let r0 := sqrt (x p1 * x p1 + y p1 * y p1 + z p1 * z p1)%float in
        let v2 := (vx p1 * vx p1 + vy p1 * vy p1 + vz p1 * vz p1)%float in
        let beta := (2 * M / r0 - v2)%float in
        let eta := (x p1 * vx p1 + y p1 * vy p1 + z p1 * vz p1)%float in
        let zeta := (M - beta * r0)%float in
        kepler_newton pow depth fuel r0 eta zeta beta (dt st) 0%float
        = Ok X) /\
  (forall depth (r0 eta zeta beta dt X G1 G2 G3 : float),
      integrator_G pow depth 1 beta X = Ok G1 ->
      integrator_G pow depth 2 beta X = Ok G2 ->
      integrator_G pow depth 3 beta X = Ok G3 ->
      let s := (r0 * X + eta * G2 + zeta * G3 - dt)%float in
      let sp := (r0 + eta * G1 + zeta * G2)%float in
      let dX := ((- s) / sp)%float in
      let X' := (X - s / sp)%float in
      (X + dX)%float = X' /\
      forall fuel,
        kepler_newton pow depth (S fuel) r0 eta zeta beta dt X =
        if (abs (dX / X') <? 1e-15)%float then Ok X'
        else kepler_newton pow depth fuel r0 eta zeta beta dt X') /\
  (pow_annex_f pow ->
   forall depth (r0 eta zeta beta dt : float),
     is_finite r0 = true -> is_zero r0 = false ->
     is_finite beta = true -> is_finite eta = true ->
     is_finite zeta = true -> is_zero dt = true ->
     integrator_G pow (S depth) 1 beta 0 = Ok 0%float /\
     integrator_G pow (S depth) 2 beta 0 = Ok 0%float /\
     integrator_G pow (S depth) 3 beta 0 = Ok 0%float /\
     forall fuel,
       kepler_newton pow (S depth) fuel r0 eta zeta beta dt 0 = OutOfFuel).
Proof.
  split; [|split; [|split]].
  - intros depth fuel i st p0 p1 E0 E1. cbv zeta.
    destruct (load_in_range _ _ _ E1) as [Hi Hlen].
    unfold kepler_step.
    rewrite E0. cbn [bind]. rewrite E1. cbn [bind].
    destruct (kepler_newton pow depth fuel _ _ _ _ (dt st) 0%float)
      as [X| |]; cbn [bind]; try reflexivity.
    destruct (integrator_G pow depth 1 _ X) as [G1| |]; cbn [bind];
      try reflexivity.
    destruct (integrator_G pow depth 2 _ X) as [G2| |]; cbn [bind];
      try reflexivity.
    destruct (integrator_G pow depth 3 _ X) as [G3| |]; cbn [bind];
      try reflexivity.
    rewrite (assign_in_range _ _ _ _ _ E1). cbn [bind].
    do 5 (rewrite (assign_replaced _ _ _ _ _ Hi Hlen); cbn [bind]).
    reflexivity.
  - intros depth fuel i st st' H.
    destruct (kepler_step_inv _ _ _ _ _ _ H)
      as [p0 [p1 [X [G1 [G2 [G3 [E0 [E1 [EX _]]]]]]]]].
    exists p0, p1, X. repeat split; assumption.
  - intros depth r0 eta zeta beta dt X G1 G2 G3 H1 H2 H3. cbv zeta.
    split; [apply Binary64.add_opp_div|].
    intros fuel. rewrite <- Binary64.add_opp_div.
    apply kepler_newton_pass; assumption.
  - intros Hpow depth r0 eta zeta beta dt Hr Hrz Hb He Hz Hdt.
    destruct (integrator_G_zero_X pow Hpow depth beta Hb) as [H1 [H2 H3]].
    repeat split; try assumption.
    intros fuel. apply kepler_newton_zero_dt; assumption.
Qed.

End Newton.

Lemma kepler_newton_method_witness :
  kepler_step pow_model 1 3 1 (two_body 0.5) =
  Ok (mkSim [sun;
             mkParticle 0.87758256189037276 0.47942553860420301 0
                        (-0.42073549240394825) 0.64773371482444264 0 0]
            2 0 0.5) /\
  (forall fuel, kepler_step pow_model 1 fuel 1 (two_body 0) = OutOfFuel) /\
  (forall fuel,
      kepler_newton pow_model 1 (S fuel) 1 0 0 1 0.5 0 =
      kepler_newton pow_model 1 fuel 1 0 0 1 0.5 0.5) /\
  (forall fuel,
      kepler_newton pow_model 1 (S fuel) 1 0 0 1 0.5 0.5 = Ok 0.5%float) /\
  (forall fuel, kepler_newton pow_model 1 fuel 1 0 0 1 0 0 = OutOfFuel).
Proof.
  pose proof (kepler_newton_method pow_model) as [Hstep [_ [Hpass Hcap]]].
  assert (Hloop : forall fuel,
             kepler_newton pow_model 1 fuel 1 0 0 1 0 0 = OutOfFuel)
    by exact (proj2 (proj2 (proj2 (Hcap pow_model_annex_f 0%nat 1 0 0 1 0
                eq_refl eq_refl eq_refl eq_refl eq_refl eq_refl)%float))).
  split; [|split; [|split; [|split]]].
  - exact (eq_trans (Hstep 1%nat 3%nat 1 (two_body 0.5) sun planet
                       eq_refl eq_refl) eq_refl).
  - intros fuel.
    refine (eq_trans (Hstep 1%nat fuel 1 (two_body 0) sun planet
                        eq_refl eq_refl) _).
    exact (f_equal (fun r => bind r _) (Hloop fuel)).
  - exact (proj2 (Hpass 1%nat 1 0 0 1 0.5 0 0 0 0
                    eq_refl eq_refl eq_refl)%float).
  - exact (proj2 (Hpass 1%nat 1 0 0 1 0.5 0.5
                    0.47942553860420301 0.12241743810962727
                    0.020574461395797005
                    eq_refl eq_refl eq_refl)%float).
  - exact Hloop.
Defined.

(** ** The step driver *)

Section Driver.

Variable pow : float -> Z -> float.

(** A step that returns has written body [i] only: every other
    body, the count, the clock and the step size are as before. *)
Lemma kepler_step_frame (depth fuel : nat) (i : Z) (st st' : sim) :
  kepler_step pow depth fuel i st = Ok st' ->
  0 <= i /\
  (forall j, j <> i -> load (particles st') j = load (particles st) j) /\
  N st' = N st /\ t st' = t st /\ dt st' = dt st.
Proof.
  intros H.
  destruct (kepler_step_inv _ _ _ _ _ _ H)
    as [p0 [p1 [X [G1 [G2 [G3 [E0 [E1 [EX [EG1 [EG2 EG3]]]]]]]]]]].
  cbv zeta in EX, EG1, EG2, EG3.
  rewrite (kepler_step_run pow depth fuel i st p0 p1 X G1 G2 G3
             E0 E1 EX EG1 EG2 EG3) in H.
  injection H as <-. cbn [particles N t dt].
  destruct (load_in_range _ _ _ E1) as [Hi Hlen].
  split; [exact Hi|]. split; [|repeat split].
  intros j Hj. destruct (Z.ltb_spec j 0) as [Hneg|Hpos].
  - unfold load. destruct (Z.ltb_spec j 0); [reflexivity|lia].
  - apply load_replace_other; lia.
Qed.

(** The [for] loop is the sweep over the indexes it counts. *)
Lemma integrator_part2_from_sweep (depth fuel : nat) (todo : nat) :
  forall (i : Z) (st : sim),
    i + Z.of_nat todo <= N st ->
    integrator_part2_from pow depth fuel todo i st =
    sweep (kepler_step pow depth fuel) (count_up todo i) st.
Proof.
  induction todo as [|todo IH]; intros i st Hb; [reflexivity|].
  cbn [integrator_part2_from count_up sweep].
  destruct (Z.ltb_spec i (N st)); [|lia].
  destruct (kepler_step pow depth fuel i st) as [st1| |] eqn:E;
    cbn [bind]; try reflexivity.
  apply IH.
  destruct (kepler_step_frame _ _ _ _ _ E) as [_ [_ [HN _]]].
  rewrite HN. lia.
Qed.

Lemma In_count_up (k : nat) :
  forall i j, In j (count_up k i) <-> i <= j < i + Z.of_nat k.
Proof.
  induction k as [|k IH]; intros i j; cbn [count_up In].
  - lia.
  - rewrite IH. lia.
Qed.

(** A sweep that returns has written the bodies it lists only. *)
Lemma sweep_frame (depth fuel : nat) (indexes : list Z) :
  forall st st',
    sweep (kepler_step pow depth fuel) indexes st = Ok st' ->
    (forall j, ~ In j indexes ->
               load (particles st') j = load (particles st) j) /\
    N st' = N st /\ t st' = t st /\ dt st' = dt st.
Proof.
  induction indexes as [|i rest IH]; intros st st' H; cbn [sweep] in H.
  - injection H as <-. repeat split.
  - apply bind_Ok in H. destruct H as [st1 [E1 H]].
    destruct (kepler_step_frame _ _ _ _ _ E1) as [_ [F1 [N1 [T1 D1]]]].
    destruct (IH _ _ H) as [F2 [N2 [T2 D2]]].
    split; [|repeat split; congruence].
    intros j Hj. cbn [In] in Hj.
    rewrite F2 by tauto. apply F1. intros ->. tauto.
Qed.

(** C9.  [integrator_part2] applies [kepler_step] to the bodies 1,
    2, ..., N-1 in this order and to no other body, then adds [dt] to
    the clock: when it returns, every body outside 1..N-1, body 0
    among them, is as it was, and [t] is the binary64 sum [t + dt]. *)
Theorem integrator_part2_sweeps (depth fuel : nat) (st : sim) :
  body_indexes (N st) = map Z.of_nat (seq 1 (Z.to_nat (N st - 1))) /\
  (forall j, In j (body_indexes (N st)) <-> 1 <= j < N st) /\
  integrator_part2 pow depth fuel st =
  (st' <- sweep (kepler_step pow depth fuel) (body_indexes (N st)) st ;;
   Ok (mkSim (particles st') (N st') (t st' + dt st')%float (dt st'))) /\
  (forall st',
      integrator_part2 pow depth fuel st = Ok st' ->
      load (particles st') 0 = load (particles st) 0 /\
      (forall j, j < 1 \/ N st <= j ->
                 load (particles st') j = load (particles st) j) /\
      t st' = (t st + dt st)%float /\
      dt st' = dt st /\ N st' = N st).
Proof.
  assert (Hmem : forall j, In j (body_indexes (N st)) <-> 1 <= j < N st).
  { intros j. unfold body_indexes. rewrite In_count_up. lia. }
  assert (Heq : integrator_part2 pow depth fuel st =
                (st' <- sweep (kepler_step pow depth fuel)
                              (body_indexes (N st)) st ;;
                 Ok (mkSim (particles st') (N st')
                           (t st' + dt st')%float (dt st')))).
  { unfold integrator_part2, body_indexes.
    destruct (Z_lt_le_dec (N st) 1) as [Hsmall|Hbig].
    - replace (Z.to_nat (N st - 1)) with 0%nat by lia. reflexivity.
    - rewrite integrator_part2_from_sweep by lia. reflexivity. }
  split; [|split; [exact Hmem|split; [exact Heq|]]].
  - unfold body_indexes. generalize (Z.to_nat (N st - 1)). intros k.
    change 1 with (Z.of_nat 1) at 1. generalize 1%nat. 
    induction k as [|k IH]; intros a; [reflexivity|].
    cbn [count_up seq map]. f_equal.
    rewrite <- IH. f_equal. lia.
  - intros st' H. rewrite Heq in H.
    apply bind_Ok in H. destruct H as [st1 [E1 H]].
    injection H as <-. cbn [particles N t dt].
    destruct (sweep_frame _ _ _ _ _ E1) as [F [HN [HT HD]]].
    assert (Hout : forall j, j < 1 \/ N st <= j ->
                             load (particles st1) j = load (particles st) j).
    { intros j Hj. apply F. rewrite Hmem. lia. }
    split; [apply Hout; lia|]. split; [exact Hout|].
    rewrite HT, HD, HN. repeat split.
Qed.

End Driver.

Lemma integrator_part2_sweeps_witness :
  exists st' : sim,
    integrator_part2 pow_model 1 3 (two_body 0.5) = Ok st' /\
    load (particles st') 0 = Ok sun /\
    t st' = 0.5%float.
Proof.
  assert (E : exists st' : sim,
             integrator_part2 pow_model 1 3 (two_body 0.5) = Ok st')
    by (eexists; vm_compute; reflexivity).
  destruct E as [st' E]. exists st'.
  destruct (proj2 (proj2 (proj2
              (integrator_part2_sweeps pow_model 1 3 (two_body 0.5)))) st' E)
    as [B0 [_ [HT _]]].
  split; [exact E|]. split; [exact B0 | exact HT].
Defined.

(** ** The series loop and the partial sums *)

Section SeriesLoop.

Variable pow : float -> Z -> float.

Lemma sum_before_step (n : Z) (z : float) (j : nat) :
  (sum_before pow n z j + series_term pow n z j)%float = series_sum pow n z j.
Proof. destruct j; reflexivity. Qed.

Lemma invfactorial_at_nth (n : Z) (j : nat) :
  0 <= n -> n + 2 * Z.of_nat j <= 34 ->
  invfactorial_at (uint (n + uint (2 * Z.of_nat j))) =
  Ok (nth (Z.to_nat n + 2 * j) invfactorial 0%float).
Proof.
  intros Hn Hb.
  rewrite (uint_small (2 * Z.of_nat j)) by lia.
  rewrite uint_small by lia.
  unfold invfactorial_at.
  replace (Z.to_nat (n + 2 * Z.of_nat j)) with (Z.to_nat n + 2 * j)%nat by lia.
  destruct (nth_error invfactorial (Z.to_nat n + 2 * j)) as [v|] eqn:E.
  - rewrite (nth_error_nth _ _ _ E). reflexivity.
  - apply nth_error_None in E. rewrite invfactorial_length in E. lia.
Qed.

(** The loop from pass [j] on, entered with the sum of the terms
    before [j], returns the partial sum at the first pass whose stop
    test holds, or the 13-term sum when none does. *)
Lemma c_n_series_from_sum (n : Z) (z : float) (todo : nat) :
  forall j : nat,
    0 <= n <= 10 -> (j + todo = 13)%nat ->
    (forall a, (a < j)%nat -> series_stop pow n z a = false) ->
    exists k : nat,
      (k <= 12)%nat /\
      c_n_series_from pow todo (Z.of_nat j) n z (sum_before pow n z j)
      = Ok (series_sum pow n z k) /\
      (forall a, (a < k)%nat -> series_stop pow n z a = false) /\
      ((k < 12)%nat -> series_stop pow n z k = true).
Proof.
  induction todo as [|todo IH]; intros j Hn Hj Hpre.
  - assert (j = 13%nat) as -> by lia.
    exists 12%nat. split; [lia|]. split; [reflexivity|].
    split; [intros a Ha; apply Hpre; lia | lia].
  - rewrite (c_n_series_from_step pow todo (Z.of_nat j) n z _ _
               (invfactorial_at_nth n j ltac:(lia) ltac:(lia))).
    cbv zeta. fold (series_term pow n z j).
    rewrite sum_before_step. fold (series_stop pow n z j).
    destruct (series_stop pow n z j) eqn:Hstop.
    + exists j. split; [lia|]. split; [reflexivity|].
      split; [exact Hpre | intros _; exact Hstop].
    + rewrite uint_small by lia.
      replace (Z.of_nat j + 1) with (Z.of_nat (S j)) by lia.
      change (series_sum pow n z j) with (sum_before pow n z (S j)).
      apply IH; [exact Hn | lia |].
      intros a Ha. destruct (Nat.eq_dec a j) as [->|Hne];
        [exact Hstop | apply Hpre; lia].
Qed.

(** The series evaluator returns the partial sum of the terms
    (-z)^j / (n+2j)!, j = 0, 1, ..., read from the table at [n + 2 j],
    up to the first term whose magnitude relative to the running sum
    is below 1e-17, and at most 13 terms. *)
Theorem c_n_series_partial_sum (n : Z) (z : float) :
  0 <= n <= 10 ->
  exists k : nat,
    (k <= 12)%nat /\
    c_n_series pow n z = Ok (series_sum pow n z k) /\
    (forall a, (a < k)%nat -> series_stop pow n z a = false) /\
    ((k < 12)%nat -> series_stop pow n z k = true).
Proof.
  intros Hn. unfold c_n_series.
  apply (c_n_series_from_sum n z 13 0%nat Hn eq_refl).
  intros a Ha. lia.
Qed.

End SeriesLoop.

Lemma c_n_series_partial_sum_witness :
  exists k : nat,
    (k <= 12)%nat /\
    c_n_series pow_model 2 0.25 = Ok (series_sum pow_model 2 0.25 k) /\
    (forall a, (a < k)%nat -> series_stop pow_model 2 0.25 a = false) /\
    ((k < 12)%nat -> series_stop pow_model 2 0.25 k = true).
Proof.
  apply (c_n_series_partial_sum pow_model 2 0.25). lia.
Defined.

(** ** What the early exit of the series leaves out *)

Section EarlyExit.

Variable pow : float -> Z -> float.

(** Once the stop test holds at pass [k], a run of later terms, none
    larger in magnitude than term [k], leaves the partial sum as it
    is. *)
Lemma series_sum_absorbed (n : Z) (z : float) (k : nat) :
  series_stop pow n z k = true ->
  forall d : nat,
    (forall a, (k < a <= k + d)%nat ->
               (abs (series_term pow n z a)
                <=? abs (series_term pow n z k))%float = true) ->
    series_sum pow n z (k + d) = series_sum pow n z k.
Proof.
  intros Hstop. induction d as [|d IH]; intros Hle.
  - rewrite Nat.add_0_r. reflexivity.
  - rewrite Nat.add_succ_r. cbn [series_sum].
    rewrite IH by (intros a Ha; apply Hle; lia).
    apply (Rounding.absorb _ (series_term pow n z k)).
    + exact Hstop.
    + apply Hle. lia.
Qed.

(** The pass the loop leaves at is the first whose stop test holds. *)
Lemma c_n_series_exit (n : Z) (z : float) (k : nat) :
  0 <= n <= 10 -> (k <= 12)%nat ->
  (forall a, (a < k)%nat -> series_stop pow n z a = false) ->
  ((k < 12)%nat -> series_stop pow n z k = true) ->
  c_n_series pow n z = Ok (series_sum pow n z k).
Proof.
  intros Hn Hk Hbefore Hat. unfold c_n_series.
  destruct (c_n_series_from_sum pow n z 13 0%nat Hn eq_refl)
    as [k' [Hk' [E [Hbefore' Hat']]]]; [intros a Ha; lia|].
  change (c_n_series_from pow 13 0 n z 0 = Ok (series_sum pow n z k')) in E.
  rewrite E.
  destruct (Nat.lt_trichotomy k' k) as [Hlt|[->|Hgt]].
  - specialize (Hbefore k' Hlt). rewrite Hat' in Hbefore by lia.
    discriminate.
  - reflexivity.
  - specialize (Hbefore' k Hgt). rewrite Hat in Hbefore' by lia.
    discriminate.
Qed.


End EarlyExit.



(** ** The velocity the step writes is not the classical one *)

(** On the unit circular orbit with [dt = 0.5] the step returns, and
    the velocity it writes differs from fd * (old position) + gd *
    (old velocity), the value of the classical Gauss formula. *)
Example kepler_step_velocity_not_classical :
  exists (st' : sim) (q : particle),
    kepler_step pow_model 1 3 1 (two_body 0.5) = Ok st' /\
    load (particles st') 1 = Ok q /\
    vx q = (-0.42073549240394825)%float /\
    vy q = 0.64773371482444264%float /\
    vx q <> (-0.47942553860420301 * x planet
             + 0.87758256189037276 * vx planet)%float /\
    vy q <> (-0.47942553860420301 * y planet
             + 0.87758256189037276 * vy planet)%float.
Proof.
  eexists. eexists. split; [vm_compute; reflexivity|].
  split; [reflexivity|]. split; [reflexivity|]. split; [reflexivity|].
  split; intros H; apply (f_equal Prim2SF) in H; vm_compute in H;
    discriminate H.
Qed.

(** ** An index outside the documented domain *)

(** For [n = 11] and [z = 100] the reducer falls through to the
    series, whose thirteenth pass asks for [invfactorial[35]], one
    past the end of the table. *)
Example c_index_11_reads_past_table :
  c pow_model 1 11 100 = c_n_series pow_model 11 100 /\
  c_n_series pow_model 11 100 = OutOfBounds /\
  invfactorial_at (uint (11 + uint (2 * 12))) = OutOfBounds.
Proof. repeat split. Qed.

(** ** The energy of the sample orbit is not kept *)

(** On the unit circular orbit with [dt = 0.5] the step returns, and
    the specific orbital energy, -0.5 before the step, has moved by
    more than 40 percent: far outside a relative 1e-10. *)
Example kepler_step_energy_not_conserved :
  exists (st' : sim) (q : particle),
    kepler_step pow_model 1 3 1 (two_body 0.5) = Ok st' /\
    load (particles st') 1 = Ok q /\
    specific_energy (m sun) planet = (-0.5)%float /\
    (abs ((specific_energy (m sun) q - specific_energy (m sun) planet)
          / specific_energy (m sun) planet) <? 1e-10)%float = false /\
    (0.4 <? abs ((specific_energy (m sun) q - specific_energy (m sun) planet)
                 / specific_energy (m sun) planet))%float = true.
Proof.
  eexists. eexists. split; [vm_compute; reflexivity|].
  repeat split.
Qed.

(** ** NaN *)

Module NaN.

(** The only value that differs from itself is NaN. *)
Lemma is_nan_eq (a : float) : is_nan a = true -> a = nan.
Proof.
  unfold is_nan. rewrite eqb_spec. intros H.
  apply Prim2SF_inj. change (Prim2SF nan) with S754_nan.
  destruct (Prim2SF a) as [s|s| |s m e]; try reflexivity;
    unfold SFeqb, SFcompare in H.
  - discriminate.
  - destruct s; discriminate.
  - change PosDef.Pos.compare_cont with Pos.compare_cont in H.
    rewrite Z.compare_refl, Pos.compare_cont_refl in H.
    destruct s; discriminate.
Qed.

Lemma mul_l (b : float) : (nan * b = nan)%float.
Proof. apply Prim2SF_inj. rewrite mul_spec. reflexivity. Qed.

Lemma add_l (b : float) : (nan + b = nan)%float.
Proof. apply Prim2SF_inj. rewrite add_spec. reflexivity. Qed.

Lemma add_r (a : float) : (a + nan = nan)%float.
Proof.
  apply Prim2SF_inj. rewrite add_spec. change (Prim2SF nan) with S754_nan.
  destruct (Prim2SF a); reflexivity.
Qed.

Lemma sub_l (b : float) : (nan - b = nan)%float.
Proof. apply Prim2SF_inj. rewrite sub_spec. reflexivity. Qed.

Lemma div_l (b : float) : (nan / b = nan)%float.
Proof. apply Prim2SF_inj. rewrite div_spec. reflexivity. Qed.

End NaN.

(** ** The Kepler step and the body it writes *)

Section OneBody.

Variable pow : float -> Z -> float.

Lemma load_out_of_range (ps : list particle) (i : Z) :
  i < 0 \/ Z.of_nat (length ps) <= i -> load ps i = OutOfBounds.
Proof.
  intros H. unfold load. destruct (Z.ltb_spec i 0); [reflexivity|].
  destruct (nth_error ps (Z.to_nat i)) eqn:E; [|reflexivity].
  assert (nth_error ps (Z.to_nat i) <> None) as Hn by (rewrite E; discriminate).
  apply nth_error_Some in Hn. lia.
Qed.

Lemma replace_nth_comm (ps : list particle) :
  forall a b p q, a <> b ->
    replace_nth (replace_nth ps a p) b q = replace_nth (replace_nth ps b q) a p.
Proof.
  induction ps as [|r tl IH]; intros [|a] [|b] p q H; simpl;
    try reflexivity; try congruence.
  rewrite IH by congruence. reflexivity.
Qed.

Lemma propagate_mass (depth fuel : nat) (M h : float) (p q : particle) :
  propagate pow depth fuel M h p = Ok q -> m q = m p.
Proof.
  unfold propagate. intros H. bind_inv H. injection H as <-. reflexivity.
Qed.

(** The six assignments of [kepler_step] amount to one write. *)
Lemma kepler_step_one_write (depth fuel : nat) (i : Z) (st : sim) :
  kepler_step pow depth fuel i st =
  (p0 <- load (particles st) 0 ;;
   p1 <- load (particles st) i ;;
   q <- propagate pow depth fuel (m p0) (dt st) p1 ;;
   ps <- store (particles st) i q ;;
   Ok (mkSim ps (N st) (t st) (dt st))).
Proof.
  unfold kepler_step, propagate.
  destruct (load (particles st) 0) as [p0| |]; try reflexivity.
  cbn [bind].
  destruct (load (particles st) i) as [p1| |] eqn:E1; try reflexivity.
  cbn [bind].
  destruct (kepler_newton _ _ _ _ _ _ _ _ _) as [X| |]; try reflexivity.
  cbn [bind].
  destruct (integrator_G pow depth 1 _ X) as [G1| |]; try reflexivity.
  destruct (integrator_G pow depth 2 _ X) as [G2| |]; try reflexivity.
  destruct (integrator_G pow depth 3 _ X) as [G3| |]; try reflexivity.
  cbn [bind].
  destruct (load_in_range _ _ _ E1) as [Hi Hlen].
  rewrite (assign_in_range _ _ _ _ _ E1). cbn [bind].
  do 5 (rewrite (assign_replaced _ _ _ _ _ Hi Hlen); cbn [bind]).
  rewrite (store_in_range _ _ _ Hi Hlen). reflexivity.
Qed.

(** What a returning step is, in one line. *)
Lemma kepler_step_Ok (depth fuel : nat) (i : Z) (st st' : sim) :
  kepler_step pow depth fuel i st = Ok st' ->
  exists p0 p1 q,
    load (particles st) 0 = Ok p0 /\
    load (particles st) i = Ok p1 /\
    propagate pow depth fuel (m p0) (dt st) p1 = Ok q /\
    st' = mkSim (replace_nth (particles st) (Z.to_nat i) q)
                (N st) (t st) (dt st).
Proof.
  rewrite kepler_step_one_write. intros H. bind_inv H.
  injection H as <-.
  destruct (load_in_range _ _ _ E0) as [Hi Hlen].
  rewrite (store_in_range _ _ _ Hi Hlen) in E2. injection E2 as <-.
  eauto 10.
Qed.

Lemma kepler_step_of_parts (depth fuel : nat) (i : Z) (st : sim)
      (p0 p1 q : particle) :
  load (particles st) 0 = Ok p0 ->
  load (particles st) i = Ok p1 ->
  propagate pow depth fuel (m p0) (dt st) p1 = Ok q ->
  kepler_step pow depth fuel i st =
  Ok (mkSim (replace_nth (particles st) (Z.to_nat i) q) (N st) (t st) (dt st)).
Proof.
  intros E0 E1 Eq. rewrite kepler_step_one_write, E0. cbn [bind].
  rewrite E1. cbn [bind]. rewrite Eq. cbn [bind].
  destruct (load_in_range _ _ _ E1) as [Hi Hlen].
  rewrite (store_in_range _ _ _ Hi Hlen). reflexivity.
Qed.

(** [kepler_step] is the per-body function [propagate] between two
    reads and one write: it reads the mass of body 0, the step size
    and body [i], and nothing else, and it returns exactly when the
    two reads are inside the array and [propagate] returns, with body
    [i] replaced by the propagated body. *)
Theorem kepler_step_propagate (depth fuel : nat) (i : Z) (st : sim) :
  kepler_step pow depth fuel i st =
  (p0 <- load (particles st) 0 ;;
   p1 <- load (particles st) i ;;
   q <- propagate pow depth fuel (m p0) (dt st) p1 ;;
   ps <- store (particles st) i q ;;
   Ok (mkSim ps (N st) (t st) (dt st))) /\
  (forall st',
      kepler_step pow depth fuel i st = Ok st' <->
      exists p0 p1 q,
        load (particles st) 0 = Ok p0 /\
        load (particles st) i = Ok p1 /\
        propagate pow depth fuel (m p0) (dt st) p1 = Ok q /\
        st' = mkSim (replace_nth (particles st) (Z.to_nat i) q)
                    (N st) (t st) (dt st)).
Proof.
  split; [apply kepler_step_one_write|].
  intros st'. split.
  - apply kepler_step_Ok.
  - intros [p0 [p1 [q [E0 [E1 [Eq ->]]]]]].
    apply (kepler_step_of_parts _ _ _ _ p0 p1 q); assumption.
Qed.

(** A step that returns has changed the position and the velocity of
    body [i] and nothing else: the mass of body [i], every other body,
    the length of the array, the count, the clock and the step size
    are as before. *)
Theorem kepler_step_writes_one_body (depth fuel : nat) (i : Z)
        (st st' : sim) :
  kepler_step pow depth fuel i st = Ok st' ->
  length (particles st') = length (particles st) /\
  (forall j, j <> i -> load (particles st') j = load (particles st) j) /\
  (exists p q, load (particles st) i = Ok p /\
               load (particles st') i = Ok q /\ m q = m p) /\
  N st' = N st /\ t st' = t st /\ dt st' = dt st.
Proof.
  intros H.
  destruct (kepler_step_Ok _ _ _ _ _ H) as [p0 [p1 [q [E0 [E1 [Eq ->]]]]]].
  destruct (load_in_range _ _ _ E1) as [Hi Hlen].
  cbn [particles N t dt].
  split; [apply replace_nth_length|].
  split; [|split; [|repeat split]].
  - intros j Hj. destruct (Z.ltb_spec j 0) as [Hneg|Hpos].
    + unfold load. destruct (Z.ltb_spec j 0); [reflexivity|lia].
    + apply load_replace_other; lia.
  - exists p1, q. split; [exact E1|]. split.
    + apply load_replace_same; assumption.
    + apply (propagate_mass _ _ _ _ _ _ Eq).
Qed.

(** With an index outside the array, an empty array included, the
    step reads outside the array before it computes anything. *)
Theorem kepler_step_out_of_range (depth fuel : nat) (i : Z) (st : sim) :
  i < 0 \/ Z.of_nat (length (particles st)) <= i ->
  kepler_step pow depth fuel i st = OutOfBounds.
Proof.
  intros H. unfold kepler_step.
  destruct (load (particles st) 0) as [p0| |] eqn:E0; cbn [bind].
  - rewrite (load_out_of_range _ _ H). reflexivity.
  - reflexivity.
  - revert E0. unfold load. simpl.
    destruct (particles st); discriminate.
Qed.

(** Two steps on different bodies can be taken in either order: when
    the step on [i] followed by the step on [j] returns, so does the
    step on [j] followed by the step on [i], with the same state. *)
Lemma kepler_step_commute (depth fuel : nat) (i j : Z)
        (st st1 st2 : sim) :
  i <> j ->
  kepler_step pow depth fuel i st = Ok st1 ->
  kepler_step pow depth fuel j st1 = Ok st2 ->
  exists st1',
    kepler_step pow depth fuel j st = Ok st1' /\
    kepler_step pow depth fuel i st1' = Ok st2.
Proof.
  intros Hij H1 H2.
  destruct (kepler_step_Ok _ _ _ _ _ H1) as [p0 [pi [qi [E0 [Ei [Eqi ->]]]]]].
  destruct (kepler_step_Ok _ _ _ _ _ H2) as [p0' [pj [qj [E0' [Ej [Eqj ->]]]]]].
  cbn [particles N t dt] in *.
  destruct (load_in_range _ _ _ Ei) as [Hi Hleni].
  destruct (load_in_range _ _ _ Ej) as [Hj Hlenj].
  rewrite replace_nth_length in Hlenj.
  rewrite load_replace_other in Ej by lia.
  assert (Hm : m p0' = m p0).
  { destruct (Z.eq_dec i 0) as [->|Hi0].
    - rewrite load_replace_same in E0' by assumption.
      injection E0' as <-. rewrite (propagate_mass _ _ _ _ _ _ Eqi).
      congruence.
    - rewrite load_replace_other in E0' by lia. congruence. }
  rewrite Hm in Eqj.
  eexists. split; [apply (kepler_step_of_parts _ _ _ _ p0 pj qj); assumption|].
  assert (exists p0'', load (replace_nth (particles st) (Z.to_nat j) qj) 0
                       = Ok p0'' /\ m p0'' = m p0) as [p0'' [E0'' Hm'']].
  { destruct (Z.eq_dec j 0) as [->|Hj0].
    - exists qj. split; [apply load_replace_same; assumption|].
      rewrite (propagate_mass _ _ _ _ _ _ Eqj). congruence.
    - exists p0. split; [|reflexivity].
      rewrite load_replace_other by lia. exact E0. }
  rewrite (kepler_step_of_parts _ _ _ _ p0'' pi qi); cbn [particles N t dt].
  - rewrite (replace_nth_comm _ (Z.to_nat j) (Z.to_nat i)) by lia.
    reflexivity.
  - exact E0''.
  - rewrite load_replace_other by lia. exact Ei.
  - rewrite Hm''. exact Eqi.
Qed.

End OneBody.

Lemma kepler_step_writes_one_body_witness :
  exists st' : sim,
    kepler_step pow_model 1 3 1 (three_body 0.5) = Ok st' /\
    length (particles st') = 3%nat /\
    load (particles st') 0 = Ok sun /\
    load (particles st') 2 = Ok outer /\
    t st' = 0%float.
Proof.
  assert (E : exists st' : sim,
             kepler_step pow_model 1 3 1 (three_body 0.5) = Ok st')
    by (eexists; vm_compute; reflexivity).
  destruct E as [st' E]. exists st'.
  destruct (kepler_step_writes_one_body pow_model 1 3 1 _ st' E)
    as [HL [HF [_ [_ [HT _]]]]].
  split; [exact E|]. split; [exact HL|].
  split; [exact (HF 0 ltac:(lia))|].
  split; [exact (HF 2 ltac:(lia)) | exact HT].
Defined.

Lemma kepler_step_out_of_range_witness :
  kepler_step pow_model 1 3 2 (two_body 0.5) = OutOfBounds /\
  kepler_step pow_model 1 3 0 (mkSim [] 0 0 0.5) = OutOfBounds.
Proof.
  split.
  - apply (kepler_step_out_of_range pow_model 1 3 2 (two_body 0.5)).
    right. simpl. lia.
  - apply (kepler_step_out_of_range pow_model 1 3 0 (mkSim [] 0 0 0.5)).
    right. simpl. lia.
Defined.

Lemma kepler_step_commute_witness :
  exists st1 st2 st1' : sim,
    kepler_step pow_model 1 5 1 (three_body 0.5) = Ok st1 /\
    kepler_step pow_model 1 5 2 st1 = Ok st2 /\
    kepler_step pow_model 1 5 2 (three_body 0.5) = Ok st1' /\
    kepler_step pow_model 1 5 1 st1' = Ok st2.
Proof.
  assert (E : exists st1 st2 : sim,
             kepler_step pow_model 1 5 1 (three_body 0.5) = Ok st1 /\
             kepler_step pow_model 1 5 2 st1 = Ok st2)
    by (eexists; eexists; split;
        [vm_compute; reflexivity | vm_compute; reflexivity]).
  destruct E as [st1 [st2 [E1 E2]]].
  destruct (kepler_step_commute pow_model 1 5 1 2 _ st1 st2
              ltac:(lia) E1 E2) as [st1' [F1 F2]].
  exists st1, st2, st1'. repeat split; assumption.
Defined.

(** ** The driver and the bodies it propagates *)

Section DriverBodies.

Variable pow : float -> Z -> float.

(** A returning sweep over [i0, i0+1, ...] has replaced each body it
    lists by its propagated state, computed from the state the body
    had before the sweep. *)
Lemma sweep_bodies (depth fuel : nat) (k : nat) :
  forall (i0 : Z) (st st' : sim) (p0 : particle),
    1 <= i0 ->
    load (particles st) 0 = Ok p0 ->
    sweep (kepler_step pow depth fuel) (count_up k i0) st = Ok st' ->
    length (particles st') = length (particles st) /\
    forall j, i0 <= j < i0 + Z.of_nat k ->
      exists pj q,
        load (particles st) j = Ok pj /\
        propagate pow depth fuel (m p0) (dt st) pj = Ok q /\
        load (particles st') j = Ok q.
Proof.
  induction k as [|k IH]; intros i0 st st' p0 Hi0 E0 H.
  - cbn [count_up sweep] in H. injection H as <-.
    split; [reflexivity | intros j Hj; lia].
  - cbn [count_up sweep] in H. apply bind_Ok in H.
    destruct H as [st1 [E1 H]].
    destruct (kepler_step_Ok pow _ _ _ _ _ E1)
      as [p0' [pi [qi [E0' [Ei [Eqi ->]]]]]].
    assert (p0' = p0) as -> by congruence.
    destruct (load_in_range _ _ _ Ei) as [Hi Hlen].
    assert (E0'' : load (replace_nth (particles st) (Z.to_nat i0) qi) 0
                   = Ok p0)
      by (rewrite load_replace_other by lia; exact E0).
    pose proof (fun e => IH (i0 + 1) _ st' p0 ltac:(lia) e H) as IH'.
    cbn [particles dt] in IH'.
    destruct (IH' E0'') as [HL HB]. clear IH'.
    rewrite replace_nth_length in HL.
    split; [exact HL|].
    intros j Hj. destruct (Z.eq_dec j i0) as [->|Hne].
    + exists pi, qi. split; [exact Ei|]. split; [exact Eqi|].
      destruct (sweep_frame pow _ _ _ _ _ H) as [F _].
      rewrite F by (rewrite In_count_up; lia).
      cbn [particles]. apply load_replace_same; assumption.
    + destruct (HB j ltac:(lia)) as [pj [q [Ej [Eq Ej']]]].
      rewrite load_replace_other in Ej by lia.
      exists pj, q. repeat split; assumption.
Qed.

(** When the driver returns, every body 1..N-1 holds the propagated
    state of the body it was, each computed from its own state before
    the call, the central mass and [dt]; the array keeps its length. *)
Theorem integrator_part2_bodies (depth fuel : nat) (st st' : sim)
        (p0 : particle) :
  integrator_part2 pow depth fuel st = Ok st' ->
  load (particles st) 0 = Ok p0 ->
  length (particles st') = length (particles st) /\
  forall j, 1 <= j < N st ->
    exists pj q,
      load (particles st) j = Ok pj /\
      propagate pow depth fuel (m p0) (dt st) pj = Ok q /\
      load (particles st') j = Ok q.
Proof.
  unfold integrator_part2. intros H E0.
  apply bind_Ok in H. destruct H as [st1 [E1 H]]. injection H as <-.
  cbn [particles].
  destruct (Z_lt_le_dec (N st) 1) as [Hsmall|Hbig].
  - replace (Z.to_nat (N st - 1)) with 0%nat in E1 by lia.
    cbn [integrator_part2_from] in E1. injection E1 as <-.
    split; [reflexivity | intros j Hj; lia].
  - rewrite integrator_part2_from_sweep in E1 by lia.
    destruct (sweep_bodies depth fuel _ 1 st st1 p0 ltac:(lia) E0 E1)
      as [HL HB].
    split; [exact HL|]. intros j Hj. apply HB. lia.
Qed.

(** With at most one body counted the driver steps nothing and only
    advances the clock, whatever the array holds; and a call that
    returns with two bodies or more had every counted body inside the
    array. *)
Theorem integrator_part2_count (depth fuel : nat) (st : sim) :
  (N st <= 1 ->
   integrator_part2 pow depth fuel st =
   Ok (mkSim (particles st) (N st) (t st + dt st)%float (dt st))) /\
  (forall st', integrator_part2 pow depth fuel st = Ok st' ->
               N st <= 1 \/ N st <= Z.of_nat (length (particles st))).
Proof.
  split.
  - intros HN. unfold integrator_part2.
    replace (Z.to_nat (N st - 1)) with 0%nat by lia. reflexivity.
  - intros st' H. destruct (Z_le_gt_dec (N st) 1) as [Hs|Hb]; [left; exact Hs|].
    right. unfold integrator_part2 in H.
    apply bind_Ok in H. destruct H as [st1 [E1 _]].
    rewrite integrator_part2_from_sweep in E1 by lia.
    assert (exists p0, load (particles st) 0 = Ok p0) as [p0 E0].
    { destruct (Z.to_nat (N st - 1)) as [|k] eqn:Ek; [lia|].
      cbn [count_up sweep] in E1. apply bind_Ok in E1.
      destruct E1 as [a [Ea _]].
      destruct (kepler_step_Ok pow _ _ _ _ _ Ea) as [p0 [_ [_ [E0 _]]]].
      exists p0. exact E0. }
    destruct (sweep_bodies depth fuel _ 1 st st1 p0 ltac:(lia) E0 E1)
      as [_ HB].
    destruct (HB (N st - 1) ltac:(lia)) as [pj [_ [Ej _]]].
    apply load_in_range in Ej. lia.
Qed.

End DriverBodies.

Lemma integrator_part2_bodies_witness :
  exists (st' : sim) (q1 q2 : particle),
    integrator_part2 pow_model 1 5 (three_body 0.5) = Ok st' /\
    length (particles st') = 3%nat /\
    propagate pow_model 1 5 1 0.5 planet = Ok q1 /\
    load (particles st') 1 = Ok q1 /\
    propagate pow_model 1 5 1 0.5 outer = Ok q2 /\
    load (particles st') 2 = Ok q2.
Proof.
  assert (E : exists st' : sim,
             integrator_part2 pow_model 1 5 (three_body 0.5) = Ok st')
    by (eexists; vm_compute; reflexivity).
  destruct E as [st' E].
  destruct (integrator_part2_bodies pow_model 1 5 _ st' sun E eq_refl)
    as [HL HB].
  destruct (HB 1 ltac:(simpl; lia)) as [p1 [q1 [E1 [P1 L1]]]].
  destruct (HB 2 ltac:(simpl; lia)) as [p2 [q2 [E2 [P2 L2]]]].
  injection E1 as <-. injection E2 as <-.
  exists st', q1, q2. repeat split; assumption.
Defined.

Lemma integrator_part2_count_witness :
  integrator_part2 pow_model 0 0 (mkSim [] 0 1 0.5) = Ok (mkSim [] 0 1.5 0.5) /\
  (3 <= 1 \/ 3 <= Z.of_nat (length (particles (three_body 0.5)))).
Proof.
  split.
  - apply (proj1 (integrator_part2_count pow_model 0 0 (mkSim [] 0 1 0.5))).
    simpl. lia.
  - assert (E : exists st' : sim,
               integrator_part2 pow_model 1 5 (three_body 0.5) = Ok st')
      by (eexists; vm_compute; reflexivity).
    destruct E as [st' E].
    exact (proj2 (integrator_part2_count pow_model 1 5 (three_body 0.5)) st' E).
Defined.

(** ** Arguments on which the reducer and the step do not return *)

Module NaN2.

Lemma div_r (a : float) : (a / nan = nan)%float.
Proof.
  apply Prim2SF_inj. rewrite div_spec. change (Prim2SF nan) with S754_nan.
  destruct (Prim2SF a); reflexivity.
Qed.

Lemma sub_r (a : float) : (a - nan = nan)%float.
Proof.
  apply Prim2SF_inj. rewrite sub_spec. change (Prim2SF nan) with S754_nan.
  destruct (Prim2SF a); reflexivity.
Qed.

End NaN2.

Section NoReturn.

Variable pow : float -> Z -> float.

(** At [z = +infinity] every level of [c] calls itself at
    [infinity / 4 = infinity]: the recursion never reaches the series,
    and [integrator_G] does not return either when [beta X X]
    overflows to [+infinity]. *)
Theorem c_at_infinity (n : Z) :
  0 <= n <= 5 ->
  (forall depth, c pow depth n infinity = OutOfFuel) /\
  (forall depth beta X,
      (beta * X * X)%float = infinity ->
      integrator_G pow depth n beta X = OutOfFuel).
Proof.
  intros Hn.
  assert (Hc : forall depth k, 0 <= k <= 5 ->
                               c pow depth k infinity = OutOfFuel).
  { induction depth as [|depth IH]; intros k Hk; [reflexivity|].
    cbn [c]. change (0.5 <? infinity)%float with true.
    change (infinity / 4)%float with infinity.
    destruct (stumpff_index_cases k Hk) as [->|[->|[->|[->|[->| ->]]]]];
      cbv iota; rewrite ?(IH 3), ?(IH 5) by lia; reflexivity. }
  split; [intros depth; apply Hc; exact Hn|].
  intros depth beta X Hz. unfold integrator_G. rewrite Hz, Hc by exact Hn.
  reflexivity.
Qed.

Lemma integrator_G_in_bounds (depth : nat) (n : Z) (beta X : float) :
  0 <= n <= 5 -> integrator_G pow depth n beta X <> OutOfBounds.
Proof.
  intros Hn. unfold integrator_G.
  pose proof (c_in_bounds pow depth n (beta * X * X)%float Hn) as H.
  destruct (c pow depth n (beta * X * X)%float); simpl; congruence.
Qed.

(** Once [zeta] is NaN every pass of the loop makes [X] NaN and the
    exit test fails. *)
Lemma kepler_newton_nan_zeta (depth : nat) (r0 eta beta h : float)
      (fuel : nat) :
  forall X, kepler_newton pow depth fuel r0 eta nan beta h X = OutOfFuel.
Proof.
  induction fuel as [|fuel IH]; intros X; [reflexivity|].
  cbn [kepler_newton].
  pose proof (integrator_G_in_bounds depth 1 beta X ltac:(lia)) as B1.
  pose proof (integrator_G_in_bounds depth 2 beta X ltac:(lia)) as B2.
  pose proof (integrator_G_in_bounds depth 3 beta X ltac:(lia)) as B3.
  destruct (integrator_G pow depth 1 beta X) as [G1| |];
    [|congruence|reflexivity].
  destruct (integrator_G pow depth 2 beta X) as [G2| |];
    [|congruence|reflexivity].
  destruct (integrator_G pow depth 3 beta X) as [G3| |];
    [|congruence|reflexivity].
  cbn [bind]. cbv zeta.
  rewrite NaN.mul_l, NaN.add_r, NaN.sub_l.
  change (- nan)%float with nan.
  rewrite NaN.div_l, NaN.add_r.
  change (abs (nan / nan) <? 1e-15)%float with false.
  apply IH.
Qed.

(** A body whose distance to the centre is NaN (a NaN coordinate), or
    whose [zeta] is NaN (a body at the centre itself: r0 = 0 makes
    beta infinite and beta r0 NaN), is never propagated: the step does
    not return, whatever [dt] and the budgets. *)
Theorem kepler_step_nan_never_returns (depth fuel : nat) (i : Z) (st : sim)
        (p0 p1 : particle) :
  load (particles st) 0 = Ok p0 ->
  load (particles st) i = Ok p1 ->
  let M := m p0 in
  let r0 := sqrt (x p1 * x p1 + y p1 * y p1 + z p1 * z p1)%float in
  let v2 := (vx p1 * vx p1 + vy p1 * vy p1 + vz p1 * vz p1)%float in
  let beta := (2 * M / r0 - v2)%float in
  let zeta := (M - beta * r0)%float in
  is_nan r0 = true \/ is_nan zeta = true ->
  kepler_step pow depth fuel i st = OutOfFuel.
Proof.
  intros E0 E1 M r0 v2 beta zeta Hnan.
  assert (Hz : zeta = nan).
  { destruct Hnan as [Hr|Hz]; [|apply NaN.is_nan_eq; exact Hz].
    apply NaN.is_nan_eq in Hr. unfold zeta, beta. rewrite Hr.
    rewrite NaN2.div_r, NaN.sub_l, NaN.mul_l, NaN2.sub_r. reflexivity. }
  unfold kepler_step. rewrite E0. cbn [bind]. rewrite E1. cbn [bind].
  fold M r0 v2 beta zeta. rewrite Hz.
  rewrite kepler_newton_nan_zeta. reflexivity.
Qed.

End NoReturn.

Lemma c_at_infinity_witness :
  c pow_model 100 0 infinity = OutOfFuel /\
  integrator_G pow_model 100 2 1e200 1e200 = OutOfFuel.
Proof.
  split.
  - exact (proj1 (c_at_infinity pow_model 0 ltac:(lia)) 100%nat).
  - exact (proj2 (c_at_infinity pow_model 2 ltac:(lia)) 100%nat
                 1e200%float 1e200%float eq_refl).
Defined.

Lemma kepler_step_nan_never_returns_witness :
  kepler_step pow_model 5 100 1
              (mkSim [sun; mkParticle nan 0 0 0 1 0 0] 2 0 0.5) = OutOfFuel /\
  kepler_step pow_model 5 100 1
              (mkSim [sun; mkParticle 0 0 0 0 1 0 0] 2 0 0.5) = OutOfFuel.
Proof.
  split.
  - apply (kepler_step_nan_never_returns pow_model 5 100 1
             (mkSim [sun; mkParticle nan 0 0 0 1 0 0] 2 0 0.5)
             sun (mkParticle nan 0 0 0 1 0 0) eq_refl eq_refl).
    left. reflexivity.
  - apply (kepler_step_nan_never_returns pow_model 5 100 1
             (mkSim [sun; mkParticle 0 0 0 0 1 0 0] 2 0 0.5)
             sun (mkParticle 0 0 0 0 1 0 0) eq_refl eq_refl).
    right. reflexivity.
Defined.

(** ** Indexes past the end of the table *)

Section PastTable.

Variable pow : float -> Z -> float.

Lemma invfactorial_at_out (k : Z) :
  35 <= k -> invfactorial_at k = OutOfBounds.
Proof.
  intros Hk. unfold invfactorial_at.
  destruct (nth_error invfactorial (Z.to_nat k)) as [v|] eqn:E;
    [|reflexivity].
  assert (nth_error invfactorial (Z.to_nat k) <> None) as H
    by (rewrite E; discriminate).
  apply nth_error_Some in H. rewrite invfactorial_length in H. lia.
Qed.

(** The loop entered at pass [j <= k] with the sum of the terms before
    it reaches pass [k] when no stop test holds earlier, and reads
    outside the table there. *)
Lemma c_n_series_from_past_table (n : Z) (z : float) (k : nat) (todo : nat) :
  0 <= n < 2 ^ 32 -> (k <= 12)%nat ->
  35 <= n + 2 * Z.of_nat k ->
  (forall a, (a < k)%nat -> n + 2 * Z.of_nat a <= 34) ->
  (forall a, (a < k)%nat -> series_stop pow n z a = false) ->
  forall j : nat,
    (j + todo = 13)%nat -> (j <= k)%nat ->
    c_n_series_from pow todo (Z.of_nat j) n z (sum_before pow n z j)
    = OutOfBounds.
Proof.
  intros Hn Hk Hout Hin Hstop.
  induction todo as [|todo IH]; intros j Hj Hjk; [lia|].
  destruct (Nat.eq_dec j k) as [->|Hne].
  - cbn [c_n_series_from].
    assert (Hi : 35 <= uint (n + uint (2 * Z.of_nat k))).
    { rewrite (uint_small (2 * Z.of_nat k)) by lia.
      destruct k as [|k'].
      - rewrite uint_small by lia. lia.
      - pose proof (Hin 0%nat ltac:(lia)). rewrite uint_small by lia. lia. }
    rewrite (invfactorial_at_out _ Hi). reflexivity.
  - pose proof (Hin j ltac:(lia)) as Hjin.
    rewrite (c_n_series_from_step pow todo (Z.of_nat j) n z _ _
               (invfactorial_at_nth n j ltac:(lia) Hjin)).
    cbv zeta. fold (series_term pow n z j).
    rewrite sum_before_step. fold (series_stop pow n z j).
    rewrite (Hstop j) by lia.
    rewrite uint_small by lia.
    replace (Z.of_nat j + 1) with (Z.of_nat (S j)) by lia.
    change (series_sum pow n z j) with (sum_before pow n z (S j)).
    apply IH; lia.
Qed.

(** [c_n_series] reads outside the table as soon as a pass [k <= 12]
    with [n + 2 k >= 35] is reached, that is when no stop test holds
    before it: at once for [n >= 35]; and [c], which hands every
    [n >= 6] to the series, does so too. *)
Theorem c_n_series_past_table (n : Z) (z : float) (k : nat) :
  0 <= n < 2 ^ 32 -> (k <= 12)%nat ->
  35 <= n + 2 * Z.of_nat k ->
  (forall a, (a < k)%nat -> n + 2 * Z.of_nat a <= 34) ->
  (forall a, (a < k)%nat -> series_stop pow n z a = false) ->
  c_n_series pow n z = OutOfBounds /\
  (6 <= n -> forall depth, c pow (S depth) n z = OutOfBounds).
Proof.
  intros Hn Hk Hout Hin Hstop.
  assert (Hs : c_n_series pow n z = OutOfBounds).
  { unfold c_n_series.
    apply (c_n_series_from_past_table n z k 13 Hn Hk Hout Hin Hstop 0%nat);
      lia. }
  split; [exact Hs|].
  intros H6 depth. rewrite c_other_index by lia. exact Hs.
Qed.

End PastTable.

Lemma c_n_series_past_table_witness :
  (c_n_series pow_model 11 100 = OutOfBounds /\
   (6 <= 11 -> forall depth, c pow_model (S depth) 11 100 = OutOfBounds)) /\
  (c_n_series pow_model 35 0 = OutOfBounds /\
   (6 <= 35 -> forall depth, c pow_model (S depth) 35 0 = OutOfBounds)).
Proof.
  split.
  - apply (c_n_series_past_table pow_model 11 100 12); try lia.
    intros a Ha.
    do 12 (destruct a as [|a]; [reflexivity|]). lia.
  - apply (c_n_series_past_table pow_model 35 0 0); try lia.
Defined.

(** ** The Stumpff functions at zero *)

Section AtZero.

Variable pow : float -> Z -> float.
Hypothesis annex_f : pow_annex_f pow.

(** At a zero argument, of either sign, [c(n, z)] is the table entry
    [1/n!] itself, for every [n] up to 32: the series stops after its
    second term, which is a zero. *)
Theorem c_at_zero (depth : nat) (n : Z) (z : float) :
  0 <= n <= 32 -> is_zero z = true ->
  c pow (S depth) n z = Ok (nth (Z.to_nat n) invfactorial 0%float).
Proof.
  intros Hn Hz.
  assert (Hk : exists k : nat, n = Z.of_nat k /\ (k <= 32)%nat)
    by (exists (Z.to_nat n); lia).
  destruct Hk as [k [-> Hk]]. rewrite Nat2Z.id.
  destruct (Zeros.is_zero_cases z Hz) as [-> | ->];
    rewrite c_small by reflexivity.
  - do 33 (destruct k as [|k];
           [eapply eq_trans;
            [eapply (c_n_series_at_zero pow annex_f);
             [vm_compute; reflexivity | vm_compute; reflexivity
              | reflexivity | reflexivity]
            | reflexivity]|]).
    lia.
  - do 33 (destruct k as [|k];
           [eapply eq_trans;
            [eapply (c_n_series_at_neg_zero pow annex_f);
             [vm_compute; reflexivity | vm_compute; reflexivity
              | reflexivity | reflexivity]
            | reflexivity]|]).
    lia.
Qed.

End AtZero.

Lemma c_at_zero_witness :
  c pow_model 1 0 0 = Ok 1%float /\
  c pow_model 1 3 neg_zero = Ok (1 / 6)%float /\
  c pow_model 1 32 0 = Ok (1 / 263130836933693530167218012160000000)%float.
Proof.
  split; [|split].
  - exact (c_at_zero pow_model pow_model_annex_f 0 0 0 ltac:(lia) eq_refl).
  - exact (c_at_zero pow_model pow_model_annex_f 0 3 neg_zero
             ltac:(lia) eq_refl).
  - exact (c_at_zero pow_model pow_model_annex_f 0 32 0 ltac:(lia) eq_refl).
Defined.

(** ** The order of the sweep *)

Section SweepOrder.

Variable pow : float -> Z -> float.

(** Stepping the same bodies, each once, in another order gives the
    same state: the bodies are propagated independently of one
    another. *)
Theorem sweep_permutation (depth fuel : nat) (l l' : list Z) :
  Permutation l l' -> NoDup l ->
  forall st st',
    sweep (kepler_step pow depth fuel) l st = Ok st' ->
    sweep (kepler_step pow depth fuel) l' st = Ok st'.
Proof.
  intros Hp. induction Hp as [|a l l' Hp IH|a b l|l l' l'' Hp1 IH1 Hp2 IH2];
    intros Hnd st st' H.
  - exact H.
  - cbn [sweep] in H. cbn [sweep]. apply bind_Ok in H.
    destruct H as [st1 [E1 H]]. rewrite E1. cbn [bind].
    apply IH; [|exact H]. inversion Hnd; assumption.
  - cbn [sweep] in H. cbn [sweep]. apply bind_Ok in H.
    destruct H as [st1 [E1 H]]. apply bind_Ok in H.
    destruct H as [st2 [E2 H]].
    assert (Hne : b <> a).
    { inversion Hnd as [|? ? Hnin _]. intros ->. apply Hnin. left.
      reflexivity. }
    destruct (kepler_step_commute pow depth fuel b a st st1 st2 Hne E1 E2)
      as [st1' [F1 F2]].
    rewrite F1. cbn [bind]. rewrite F2. cbn [bind]. exact H.
  - apply IH2; [apply (Permutation_NoDup Hp1 Hnd)|].
    apply IH1; assumption.
Qed.

End SweepOrder.

Lemma sweep_permutation_witness :
  exists st' : sim,
    sweep (kepler_step pow_model 1 5) [1; 2] (three_body 0.5) = Ok st' /\
    sweep (kepler_step pow_model 1 5) [2; 1] (three_body 0.5) = Ok st'.
Proof.
  assert (E : exists st' : sim,
             sweep (kepler_step pow_model 1 5) [1; 2] (three_body 0.5)
             = Ok st')
    by (eexists; vm_compute; reflexivity).
  destruct E as [st' E]. exists st'. split; [exact E|].
  apply (sweep_permutation pow_model 1 5 [1; 2] [2; 1]
           (perm_swap 2 1 []) ltac:(repeat constructor; simpl; lia) _ st' E).
Defined.
